(** * Contact manager: repository and search layer

    A shallow embedding of [src/repository/contacts.py],
    [src/repository/users.py] and [src/routes/search.py].  The SQLAlchemy
    session is an explicit store threaded through a state-and-exception
    monad; a Python exception is a value of [exn]. *)

From Stdlib Require Import ZArith Ascii String.
From stdpp Require Import base decidable option list numbers strings gmap.

Local Open Scope Z_scope.

(** ** Data model *)

(** Python's [datetime.date]. *)
Record date := Date { year : Z; month : Z; day : Z }.

#[global] Instance date_eq_dec : EqDecision date.
Proof. solve_decision. Defined.

(** Modelled from the spec: the schema [src.schemas.ContactModel] is not
    among the sources.  Its fields are the seven attributes that [update]
    reads from [body]. *)
Module ContactModel.
Record t := Build {
  firstname : string;
  lastname : string;
  email : string;
  phone : string;
  birthday : date;
  additional_info : string;
  is_favorite : bool
}.
End ContactModel.

(** Modelled from the spec: the schema [src.schemas.ContactFavoriteModel]
    is not among the sources.  Its one field is the attribute that
    [set_favorite] reads from [body]. *)
Module ContactFavoriteModel.
Record t := Build { is_favorite : bool }.
End ContactFavoriteModel.

(** Modelled from the spec: the ORM class [src.database.models.Contact] is
    not among the sources.  Its columns are the ones the repository reads
    and writes: the primary key [id], the seven mutable attributes and the
    foreign key [user_id]. *)
Module Contact.
Record t := Build {
  id : Z;
  firstname : string;
  lastname : string;
  email : string;
  phone : string;
  birthday : date;
  additional_info : string;
  is_favorite : bool;
  user_id : Z
}.

(** Attribute assignment [contact.attr = v]. *)
Definition set_firstname (v : string) (c : t) : t :=
  Build (id c) v (lastname c) (email c) (phone c) (birthday c)
        (additional_info c) (is_favorite c) (user_id c).
Definition set_lastname (v : string) (c : t) : t :=
  Build (id c) (firstname c) v (email c) (phone c) (birthday c)
        (additional_info c) (is_favorite c) (user_id c).
Definition set_email (v : string) (c : t) : t :=
  Build (id c) (firstname c) (lastname c) v (phone c) (birthday c)
        (additional_info c) (is_favorite c) (user_id c).
Definition set_phone (v : string) (c : t) : t :=
  Build (id c) (firstname c) (lastname c) (email c) v (birthday c)
        (additional_info c) (is_favorite c) (user_id c).
Definition set_birthday (v : date) (c : t) : t :=
  Build (id c) (firstname c) (lastname c) (email c) (phone c) v
        (additional_info c) (is_favorite c) (user_id c).
Definition set_additional_info (v : string) (c : t) : t :=
  Build (id c) (firstname c) (lastname c) (email c) (phone c) (birthday c)
        v (is_favorite c) (user_id c).
Definition set_is_favorite (v : bool) (c : t) : t :=
  Build (id c) (firstname c) (lastname c) (email c) (phone c) (birthday c)
        (additional_info c) v (user_id c).

(** The value object a contact carries: its seven mutable attributes. *)
Definition fields (c : t) : ContactModel.t :=
  ContactModel.Build (firstname c) (lastname c) (email c) (phone c)
                     (birthday c) (additional_info c) (is_favorite c).
End Contact.

#[global] Instance Contact_eq_dec : EqDecision Contact.t.
Proof. solve_decision. Defined.

(** Modelled from the spec: the ORM class [src.database.models.User] is not
    among the sources.  Its columns are the ones [users.py] touches. *)
Module User.
Record t := Build {
  id : Z;
  email : string;
  password : string;
  refresh_token : option string;
  password_reset_token : option string;
  confirmed : bool;
  avatar : string
}.

Definition set_refresh_token (v : option string) (u : t) : t :=
  Build (id u) (email u) (password u) v
        (password_reset_token u) (confirmed u) (avatar u).
Definition set_password_reset_token (v : option string) (u : t) : t :=
  Build (id u) (email u) (password u) (refresh_token u)
        v (confirmed u) (avatar u).
Definition set_password (v : string) (u : t) : t :=
  Build (id u) (email u) v (refresh_token u)
        (password_reset_token u) (confirmed u) (avatar u).
Definition set_confirmed (v : bool) (u : t) : t :=
  Build (id u) (email u) (password u) (refresh_token u)
        (password_reset_token u) v (avatar u).
Definition set_avatar (v : string) (u : t) : t :=
  Build (id u) (email u) (password u) (refresh_token u)
        (password_reset_token u) (confirmed u) v.
End User.

#[global] Instance User_eq_dec : EqDecision User.t.
Proof. solve_decision. Defined.

(** ** The store behind a [Session] *)

(** Two tables in storage order, and the sequence that feeds the primary
    key of [contacts]. *)
Record DB := MkDB {
  contacts : list Contact.t;
  users : list User.t;
  next_contact_id : Z
}.

Definition empty_db : DB := MkDB [] [] 1.

(** Exceptions that can leave this layer. *)
Inductive exn :=
| AttributeError (attr : string)      (* attribute access on [None] *)
| InvalidRequestError                 (* [refresh] of a row that is gone *)
| HTTPException (status_code : Z) (detail : string).

Inductive outcome (A : Type) :=
| Returns (a : A) (db : DB)
| Raises (e : exn) (db : DB).
Arguments Returns {A} a db.
Arguments Raises {A} e db.

(** A computation against the session. *)
Definition M (A : Type) : Type := DB → outcome A.

#[global] Instance M_ret : MRet M := λ A a db, Returns a db.
#[global] Instance M_bind : MBind M := λ A B k m db,
  match m db with
  | Returns a db' => k a db'
  | Raises e db' => Raises e db'
  end.

#[global] Instance M_fmap : FMap M := λ A B f m db,
  match m db with
  | Returns a db' => Returns (f a) db'
  | Raises e db' => Raises e db'
  end.

Definition raise {A} (e : exn) : M A := λ db, Raises e db.
Definition session : M DB := λ db, Returns db db.
Definition store (db' : DB) : M unit := λ _, Returns tt db'.

(** *** Session primitives *)

(** [db.query(Contact).filter(p)]: the rows that satisfy [p], in storage
    order. *)
Definition query_contacts (P : Contact.t → Prop) `{!∀ c, Decision (P c)}
    : M (list Contact.t) :=
  db ← session; mret (filter P (contacts db)).

Definition query_users (P : User.t → Prop) `{!∀ u, Decision (P u)}
    : M (list User.t) :=
  db ← session; mret (filter P (users db)).

(** [db.add(contact); db.commit()]: INSERT; the primary key comes from the
    sequence. *)
Definition add_contact (pending : Z → Contact.t) : M Contact.t :=
  db ← session;
  let contact := pending (next_contact_id db) in
  _ ← store (MkDB (contacts db ++ [contact]) (users db) (next_contact_id db + 1));
  mret contact.

(** [db.refresh(contact)]: reload the row by primary key. *)
Definition refresh_contact (contact : Contact.t) : M Contact.t :=
  rows ← query_contacts (λ r, Contact.id r = Contact.id contact);
  match head rows with
  | Some row => mret row
  | None => raise InvalidRequestError
  end.

(** [db.commit()] with [contact] dirty: UPDATE ... WHERE id = contact.id. *)
Definition commit_contact (contact : Contact.t) : M unit :=
  db ← session;
  store (MkDB ((λ r, if decide (Contact.id r = Contact.id contact)
                     then contact else r) <$> contacts db)
              (users db) (next_contact_id db)).

(** [db.delete(contact); db.commit()]: DELETE ... WHERE id = contact.id. *)
Definition delete_contact (contact : Contact.t) : M unit :=
  db ← session;
  store (MkDB (filter (λ r, Contact.id r ≠ Contact.id contact) (contacts db))
              (users db) (next_contact_id db)).

(** [db.commit()] with [user] dirty: UPDATE ... WHERE id = user.id. *)
Definition commit_user (user : User.t) : M unit :=
  db ← session;
  store (MkDB (contacts db)
              ((λ r, if decide (User.id r = User.id user) then user else r)
                 <$> users db)
              (next_contact_id db)).

(** ** [src/repository/contacts.py] *)

Definition get_contacts (user : User.t) (limit offset : nat)
    : M (list Contact.t) :=
  rows ← query_contacts (λ c, Contact.user_id c = User.id user);
  mret (take limit (drop offset rows)).

Definition get_contact_by_id (user : User.t) (contact_id : Z)
    : M (option Contact.t) :=
  rows ← query_contacts
           (λ c, Contact.user_id c = User.id user ∧ Contact.id c = contact_id);
  mret (head rows).

Definition create (user : User.t) (body : ContactModel.t) : M Contact.t :=
  let contact := λ pk,
    Contact.Build pk (ContactModel.firstname body) (ContactModel.lastname body)
      (ContactModel.email body) (ContactModel.phone body)
      (ContactModel.birthday body) (ContactModel.additional_info body)
      (ContactModel.is_favorite body) (User.id user) in
  contact ← add_contact contact;
  contact ← refresh_contact contact;
  mret contact.

Definition update (user : User.t) (contact_id : Z) (body : ContactModel.t)
    : M (option Contact.t) :=
  contact ← get_contact_by_id user contact_id;
  match contact with
  | Some contact =>
      let contact := Contact.set_firstname (ContactModel.firstname body) contact in
      let contact := Contact.set_lastname (ContactModel.lastname body) contact in
      let contact := Contact.set_email (ContactModel.email body) contact in
      let contact := Contact.set_phone (ContactModel.phone body) contact in
      let contact := Contact.set_birthday (ContactModel.birthday body) contact in
      let contact :=
        Contact.set_additional_info (ContactModel.additional_info body) contact in
      let contact :=
        Contact.set_is_favorite (ContactModel.is_favorite body) contact in
      _ ← commit_contact contact;
      mret (Some contact)
  | None => mret None
  end.

Definition remove (user : User.t) (contact_id : Z) : M (option Contact.t) :=
  contact ← get_contact_by_id user contact_id;
  match contact with
  | Some contact =>
      _ ← delete_contact contact;
      mret (Some contact)
  | None => mret None
  end.

Definition set_favorite (user : User.t) (contact_id : Z)
    (body : ContactFavoriteModel.t) : M (option Contact.t) :=
  contact ← get_contact_by_id user contact_id;
  match contact with
  | Some contact =>
      let contact :=
        Contact.set_is_favorite (ContactFavoriteModel.is_favorite body) contact in
      _ ← commit_contact contact;
      mret (Some contact)
  | None => mret None
  end.

(** ** [src/repository/users.py] *)

(** Attribute assignment [obj.attr = v] on a value that may be [None]:
    Python raises [AttributeError] when it is. *)
Definition setattr {A} (attr : string) (assign : A → A) (obj : option A) : M A :=
  match obj with
  | Some o => mret (assign o)
  | None => raise (AttributeError attr)
  end.

Definition get_user_by_email (email : string) : M (option User.t) :=
  rows ← query_users (λ u, User.email u = email);
  mret (head rows).

Definition update_token (user : User.t) (refresh_token : option string) : M unit :=
  let user := User.set_refresh_token refresh_token user in
  commit_user user.

Definition confirmed_email (email : string) : M unit :=
  user ← get_user_by_email email;
  user ← setattr "confirmed" (User.set_confirmed true) user;
  commit_user user.

Definition update_avatar (email : string) (url : string) : M User.t :=
  user ← get_user_by_email email;
  user ← setattr "avatar" (User.set_avatar url) user;
  _ ← commit_user user;
  mret user.

Definition update_password (user : User.t) (new_password : string) : M unit :=
  let user := User.set_password new_password user in
  commit_user user.

Definition update_reset_token (user : User.t) (reset_token : option string)
    : M unit :=
  let user := User.set_password_reset_token reset_token user in
  commit_user user.

(** ** Calendar arithmetic and text matching used by the search queries *)

Definition is_leap (y : Z) : bool :=
  (y mod 4 =? 0) && (negb (y mod 100 =? 0) || (y mod 400 =? 0)).

Definition days_in_month (y m : Z) : Z :=
  match m with
  | 2 => if is_leap y then 29 else 28
  | 4 | 6 | 9 | 11 => 30
  | _ => 31
  end.

(** [d + timedelta(days=1)]. *)
Definition next_day (d : date) : date :=
  if day d <? days_in_month (year d) (month d) then
    Date (year d) (month d) (day d + 1)
  else if month d <? 12 then Date (year d) (month d + 1) 1
  else Date (year d + 1) 1 1.

(** [d + timedelta(days=n)] for [n >= 0]. *)
Definition add_days (d : date) (n : nat) : date := Nat.iter n next_day d.

(** The calendar days of the closed range [[today, today + shift]]; the
    range is empty when [shift] is negative. *)
Definition window (today : date) (shift : Z) : list date :=
  if shift <? 0 then []
  else add_days today <$> seq 0 (S (Z.to_nat shift)).

(** Same month and day, whatever the year. *)
Definition same_month_day (d b : date) : bool :=
  (month d =? month b) && (day d =? day b).

Definition birthday_in_window (today : date) (shift : Z) (b : date) : bool :=
  existsb (λ d, same_month_day d b) (window today shift).

(** Lower-casing of the ASCII letters. *)
Definition lower_ascii (a : ascii) : ascii :=
  let n := Ascii.N_of_ascii a in
  if ((65 <=? n) && (n <=? 90))%N then Ascii.ascii_of_N (n + 32) else a.

Fixpoint lower (s : string) : string :=
  match s with
  | EmptyString => EmptyString
  | String a s' => String (lower_ascii a) (lower s')
  end.

(** [needle in hay]. *)
Fixpoint contains (needle hay : string) : bool :=
  String.prefix needle hay ||
  match hay with
  | EmptyString => false
  | String _ hay' => contains needle hay'
  end.

(** Case-insensitive [text in field]. *)
Definition icontains (text field : string) : bool :=
  contains (lower text) (lower field).

(** ** [src/repository/search.py] *)

Module repository_search.

(** Modelled from the spec: [src/repository/search.py] is not among the
    sources.  "Returns every owned contact whose birthday (month+day,
    ignoring year) falls within [[today, today + shift_days]] inclusive";
    the result is a sequence, empty when nothing matches.  [today] is the
    clock reading of the call. *)
Definition get_birthday_list (today : date) (user : User.t) (shift : Z)
    : M (list Contact.t) :=
  query_contacts
    (λ c, Contact.user_id c = User.id user ∧
          birthday_in_window today shift (Contact.birthday c) = true).

(** Modelled from the spec: [src/repository/search.py] is not among the
    sources.  "Returns every owned contact where [text] is a
    case-insensitive substring of firstname OR lastname OR email OR
    phone". *)
Definition get_users_by_partial_info (user : User.t) (partial_info : string)
    : M (list Contact.t) :=
  query_contacts
    (λ c, Contact.user_id c = User.id user ∧
          (icontains partial_info (Contact.firstname c)
           || icontains partial_info (Contact.lastname c)
           || icontains partial_info (Contact.email c)
           || icontains partial_info (Contact.phone c)) = true).

End repository_search.

(** ** [src/routes/search.py] *)

Module routes_search.
Section Handlers.

(** What the handlers import from [src.repository.search]; a Python
    result may be [None]. *)
Variable repository_get_birthday_list :
  User.t → Z → M (option (list Contact.t)).
Variable repository_get_users_by_partial_info :
  User.t → string → M (option (list Contact.t)).

Definition get_birthday_list (shift : Z) (current_user : User.t)
    : M (list Contact.t) :=
  contacts ← repository_get_birthday_list current_user shift;
  match contacts with
  | None => raise (HTTPException 404 "Not Found")
  | Some contacts => mret contacts
  end.

Definition find_contacts_by_partial_info (partial_info : string)
    (current_user : User.t) : M (list Contact.t) :=
  contacts ← repository_get_users_by_partial_info current_user partial_info;
  match contacts with
  | None => raise (HTTPException 404 "Users not found")
  | Some contacts => mret contacts
  end.

End Handlers.
End routes_search.

(** The search endpoints wired to the repository, as [main.py] mounts
    them. *)
Definition birthday_window (today : date) (current_user : User.t) (shift : Z)
    : M (list Contact.t) :=
  routes_search.get_birthday_list
    (λ u s, Some <$> repository_search.get_birthday_list today u s)
    shift current_user.

Definition partial_match (current_user : User.t) (text : string)
    : M (list Contact.t) :=
  routes_search.find_contacts_by_partial_info
    (λ u s, Some <$> repository_search.get_users_by_partial_info u s)
    text current_user.

(** * Specification vocabulary *)

(** The primary key of [contacts] is unique and every key in use was drawn
    from the sequence. *)
Definition wf_db (db : DB) : Prop :=
  NoDup (Contact.id <$> contacts db) ∧
  Forall (λ c, Contact.id c < next_contact_id db) (contacts db).

#[global] Instance wf_db_dec (db : DB) : Decision (wf_db db).
Proof. unfold wf_db. apply _. Defined.

(** The object [update] leaves behind: key and owner of [old], attributes
    of [body]. *)
Definition updated (old : Contact.t) (body : ContactModel.t) : Contact.t :=
  Contact.Build (Contact.id old)
    (ContactModel.firstname body) (ContactModel.lastname body)
    (ContactModel.email body) (ContactModel.phone body)
    (ContactModel.birthday body) (ContactModel.additional_info body)
    (ContactModel.is_favorite body) (Contact.user_id old).

Definition replace_contact (c : Contact.t) (db : DB) : DB :=
  MkDB ((λ r, if decide (Contact.id r = Contact.id c) then c else r)
          <$> contacts db)
       (users db) (next_contact_id db).

Definition without_contact (c : Contact.t) (db : DB) : DB :=
  MkDB (filter (λ r, Contact.id r ≠ Contact.id c) (contacts db))
       (users db) (next_contact_id db).


(** The object [create] returns: a key drawn from the sequence, the
    attributes of [body], the caller as owner. *)
Definition created (user : User.t) (body : ContactModel.t) (db : DB)
    : Contact.t :=
  Contact.Build (next_contact_id db)
    (ContactModel.firstname body) (ContactModel.lastname body)
    (ContactModel.email body) (ContactModel.phone body)
    (ContactModel.birthday body) (ContactModel.additional_info body)
    (ContactModel.is_favorite body) (User.id user).

Definition with_contact (c : Contact.t) (db : DB) : DB :=
  MkDB (contacts db ++ [c]) (users db) (next_contact_id db + 1).

(** *** Histories of contact mutations *)

Inductive op :=
| OpCreate (user : User.t) (body : ContactModel.t)
| OpUpdate (user : User.t) (contact_id : Z) (body : ContactModel.t)
| OpRemove (user : User.t) (contact_id : Z)
| OpSetFavorite (user : User.t) (contact_id : Z) (body : ContactFavoriteModel.t).

(** The store a call leaves behind, whether it returned or raised. *)
Definition final {A} (o : outcome A) : DB :=
  match o with
  | Returns _ db => db
  | Raises _ db => db
  end.

Definition exec (o : op) (db : DB) : DB :=
  match o with
  | OpCreate user body => final (create user body db)
  | OpUpdate user contact_id body => final (update user contact_id body db)
  | OpRemove user contact_id => final (remove user contact_id db)
  | OpSetFavorite user contact_id body =>
      final (set_favorite user contact_id body db)
  end.

Definition run (ops : list op) (db : DB) : DB :=
  foldl (λ db o, exec o db) db ops.

(** Ghost record of who created which contact: every successful [create]
    files the new key under the caller's id. *)
Definition record (o : op) (db : DB) (creators : gmap Z Z) : gmap Z Z :=
  match o with
  | OpCreate user body =>
      match create user body db with
      | Returns c _ => <[Contact.id c := User.id user]> creators
      | Raises _ _ => creators
      end
  | _ => creators
  end.

Fixpoint creators_after (ops : list op) (db : DB) (creators : gmap Z Z)
    : gmap Z Z :=
  match ops with
  | [] => creators
  | o :: ops => creators_after ops (exec o db) (record o db creators)
  end.

(** [creators] accounts for the store: it names the owner of every stored
    contact and holds no key the sequence has yet to hand out. *)
Definition tracked (db : DB) (creators : gmap Z Z) : Prop :=
  (∀ c, c ∈ contacts db → creators !! Contact.id c = Some (Contact.user_id c)) ∧
  (∀ k u, creators !! k = Some u → k < next_contact_id db).

(** Every row stored under key [k] belongs to user [a], and [k] has been
    handed out already. *)
Definition key_owned (k a : Z) (db : DB) : Prop :=
  k < next_contact_id db ∧
  ∀ r, r ∈ contacts db → Contact.id r = k → Contact.user_id r = a.


Definition replace_user (u : User.t) (db : DB) : DB :=
  MkDB (contacts db)
       ((λ r, if decide (User.id r = User.id u) then u else r) <$> users db)
       (next_contact_id db).

(** *** Sample data *)

Definition alice : User.t :=
  User.Build 1 "alice@x.com" "$2b$12$hash" None None false "".
Definition bob : User.t :=
  User.Build 2 "bob@x.com" "$2b$12$hash" None None false "".

Definition anna : ContactModel.t :=
  ContactModel.Build "Anna" "Smith" "anna@x.com" "555-0101"
                     (Date 1990 12 25) "met in Kyiv" false.
Definition bobby : ContactModel.t :=
  ContactModel.Build "Bob" "Jones" "bobsmith@x.com" "555-0102"
                     (Date 1985 1 5) "" true.
Definition carol : ContactModel.t :=
  ContactModel.Build "Carol" "Smythe" "carol@x.com" "555-0103"
                     (Date 1979 7 14) "" false.

(** Alice's address book after three calls of [create]; Bob has none. *)
Definition sample_db : DB :=
  run [OpCreate alice anna; OpCreate alice bobby; OpCreate alice carol]
      (MkDB [] [alice; bob] 1).

Definition stored (key : Z) (owner : User.t) (body : ContactModel.t)
    : Contact.t :=
  Contact.Build key (ContactModel.firstname body) (ContactModel.lastname body)
    (ContactModel.email body) (ContactModel.phone body)
    (ContactModel.birthday body) (ContactModel.additional_info body)
    (ContactModel.is_favorite body) (User.id owner).

(** A history over the empty store, by two users. *)
Definition history : list op :=
  [OpCreate alice anna; OpCreate bob carol; OpUpdate alice 1 bobby;
   OpSetFavorite bob 2 (ContactFavoriteModel.Build true); OpRemove bob 1;
   OpCreate bob anna].

(** ** [main.py] *)

(** [try: body except Exception as exc: handler(exc)]. *)
Definition try_except {A} (body : M A) (handler : exn → M A) : M A :=
  λ db,
    match body db with
    | Returns a db' => Returns a db'
    | Raises exc db' => handler exc db'
    end.

Module main.
Section App.

(** What [main.py] takes from its collaborators: the response type of the
    framework with its [JSONResponse] constructor, Python's [str] on
    exceptions, and [db.execute(text("SELECT 1")).fetchone()], whose row
    may be [None]. *)
Context {Response Row : Type}.
Variable JSONResponse : Z → list (string * string) → Response.
Variable str : exn → string.
Variable select_1 : M (option Row).


Definition healthchecker : M (list (string * string)) :=
  try_except
    (result ← select_1;
     match result with
     | None =>
         raise (HTTPException 500 "Database is not configured correctly")
     | Some _ => mret [("message", "Welcome to FastAPI!")]
     end)
    (λ e, raise (HTTPException 500 "Error connecting to the database")).

End App.
End main.

(** *** More specification vocabulary *)

(** The primary key of [users] is unique. *)
Definition wf_users (db : DB) : Prop := NoDup (User.id <$> users db).

#[global] Instance wf_users_dec (db : DB) : Decision (wf_users db).
Proof. unfold wf_users. apply _. Defined.

(** The caller on whose behalf a mutation runs. *)
Definition op_user (o : op) : User.t :=
  match o with
  | OpCreate user _ => user
  | OpUpdate user _ _ => user
  | OpRemove user _ => user
  | OpSetFavorite user _ _ => user
  end.

(** The rows of [contacts] that belong to a user, in storage order. *)
Definition owned_rows (owner : Z) (db : DB) : list Contact.t :=
  filter (λ c, Contact.user_id c = owner) (contacts db).

(** [body] with another favorite flag. *)
Definition with_favorite (flag : bool) (body : ContactModel.t)
    : ContactModel.t :=
  ContactModel.Build (ContactModel.firstname body) (ContactModel.lastname body)
    (ContactModel.email body) (ContactModel.phone body)
    (ContactModel.birthday body) (ContactModel.additional_info body) flag.

(** A history in which Alice makes no call. *)
Definition bobs_history : list op :=
  [OpUpdate bob 1 carol; OpRemove bob 2; OpCreate bob anna;
   OpSetFavorite bob 3 (ContactFavoriteModel.Build true); OpRemove bob 4].
(** * Properties *)

(** ** Queries over a table *)

Section Table.
Context {A : Type} (P : A → Prop) `{!∀ x, Decision (P x)}.

Lemma first_None (l : list A) :
  head (filter P l) = None ↔ ∀ x, x ∈ l → ¬ P x.
Proof.
  rewrite head_None. split.
  - intros Hnil x Hx HP. by eapply filter_nil_not_elem_of.
  - intros Hall. induction l as [|y l IH]; [done|].
    rewrite filter_cons_False.
    + apply IH. intros x Hx. apply Hall. by right.
    + apply Hall. by left.
Qed.

Lemma first_Some_elem (l : list A) (x : A) :
  head (filter P l) = Some x → x ∈ l ∧ P x.
Proof.
  intros Hhd. apply head_Some_elem_of in Hhd.
  apply list_elem_of_filter in Hhd. tauto.
Qed.

Lemma filter_keeps_all (l : list A) :
  (∀ x, x ∈ l → P x) → filter P l = l.
Proof.
  induction l as [|y l IH]; intros Hall; [done|].
  rewrite filter_cons_True by (apply Hall; by left).
  f_equal. apply IH. intros x Hx. apply Hall. by right.
Qed.

Lemma first_unique (l : list A) (x : A) :
  x ∈ l → P x → (∀ y, y ∈ l → P y → y = x) → head (filter P l) = Some x.
Proof.
  intros Hx HP Huniq.
  destruct (head (filter P l)) as [y|] eqn:Hhd.
  - apply first_Some_elem in Hhd as [Hy HPy]. f_equal. by apply Huniq.
  - rewrite first_None in Hhd. by destruct (Hhd x).
Qed.
End Table.

(** Rows addressed through a key column [key] that holds no duplicates. *)
Section Keyed.
Context {A K : Type} `{!EqDecision K} (key : A → K).

Lemma key_unique (l : list A) (x y : A) :
  NoDup (key <$> l) → x ∈ l → y ∈ l → key x = key y → x = y.
Proof.
  intros Hnd Hx Hy Hk.
  apply list_elem_of_lookup in Hx as [i Hi].
  apply list_elem_of_lookup in Hy as [j Hj].
  assert (i = j) as ->.
  { eapply NoDup_lookup; [exact Hnd| |].
    - rewrite list_lookup_fmap, Hi. reflexivity.
    - rewrite list_lookup_fmap, Hj. simpl. by rewrite Hk. }
  congruence.
Qed.

(** UPDATE ... WHERE key = k touches exactly the row that holds [k]. *)
Lemma update_by_key (l : list A) (i : nat) (x x' : A) :
  NoDup (key <$> l) → l !! i = Some x → key x' = key x →
  (λ r, if decide (key r = key x') then x' else r) <$> l = <[i:=x']> l.
Proof.
  intros Hnd Hi Hk. apply list_eq. intros j.
  rewrite list_lookup_fmap.
  destruct (decide (i = j)) as [<-|Hne].
  - rewrite list_lookup_insert_eq by (by eapply lookup_lt_Some).
    rewrite Hi. simpl. by rewrite decide_True.
  - rewrite list_lookup_insert_ne by done.
    destruct (l !! j) as [y|] eqn:Hj; [|done]. simpl.
    rewrite decide_False; [done|]. intros Hy. apply Hne.
    eapply NoDup_lookup; [exact Hnd| |].
    + rewrite list_lookup_fmap, Hi. reflexivity.
    + rewrite list_lookup_fmap, Hj. simpl. congruence.
Qed.

(** DELETE ... WHERE key = k removes every row that holds [k]. *)
Lemma delete_by_key_gone (l : list A) (k : K) (y : A) :
  y ∈ filter (λ r, key r ≠ k) l → key y ≠ k.
Proof. rewrite list_elem_of_filter. tauto. Qed.

Lemma delete_by_key_other (l : list A) (k : K) (y : A) :
  y ∈ l → key y ≠ k → y ∈ filter (λ r, key r ≠ k) l.
Proof. rewrite list_elem_of_filter. tauto. Qed.

Lemma delete_by_key (l : list A) (i : nat) (x : A) :
  NoDup (key <$> l) → l !! i = Some x →
  filter (λ r, key r ≠ key x) l = delete i l.
Proof.
  revert i. induction l as [|y l IH]; intros i Hnd Hi; [done|].
  rewrite fmap_cons, NoDup_cons in Hnd. destruct Hnd as [Hy Hnd].
  destruct i as [|i]; simpl in *.
  - injection Hi as ->. rewrite filter_cons_False by (intros H; by apply H).
    apply filter_keeps_all. intros z Hz Hk. apply Hy.
    rewrite <- Hk. by apply list_elem_of_fmap_2.
  - rewrite filter_cons_True.
    + f_equal. by apply IH.
    + intros Hk. apply Hy. rewrite Hk.
      apply list_elem_of_fmap_2. by eapply list_elem_of_lookup_2.
Qed.
End Keyed.

(** ** Running a computation *)

Lemma run_bind {A B} (m : M A) (k : A → M B) (db : DB) :
  (m ≫= k) db =
  match m db with
  | Returns a db' => k a db'
  | Raises e db' => Raises e db'
  end.
Proof. reflexivity. Qed.

Lemma run_query_contacts (P : Contact.t → Prop) `{!∀ c, Decision (P c)}
    (db : DB) :
  query_contacts P db = Returns (filter P (contacts db)) db.
Proof. reflexivity. Qed.

Lemma run_get_contact_by_id (user : User.t) (contact_id : Z) (db : DB) :
  get_contact_by_id user contact_id db =
  Returns (head (filter (λ c, Contact.user_id c = User.id user ∧
                              Contact.id c = contact_id) (contacts db))) db.
Proof. reflexivity. Qed.

Lemma run_get_user_by_email (email : string) (db : DB) :
  get_user_by_email email db =
  Returns (head (filter (λ u, User.email u = email) (users db))) db.
Proof. reflexivity. Qed.

(** ** Table constraints *)

Lemma wf_empty : wf_db empty_db.
Proof. split; constructor. Qed.

Lemma wf_fresh (db : DB) (c : Contact.t) :
  wf_db db → c ∈ contacts db → Contact.id c ≠ next_contact_id db.
Proof.
  intros [_ Hlt] Hc. rewrite Forall_forall in Hlt.
  specialize (Hlt c Hc). simpl in Hlt. lia.
Qed.

(** ** [get_contact_by_id] *)

Lemma get_contact_by_id_None (user : User.t) (contact_id : Z) (db : DB) :
  get_contact_by_id user contact_id db = Returns None db ↔
  ∀ c, c ∈ contacts db → Contact.id c = contact_id →
       Contact.user_id c ≠ User.id user.
Proof.
  rewrite run_get_contact_by_id. split.
  - intros Hrun c Hc Hid Huser. injection Hrun as Hhd.
    rewrite first_None in Hhd. by apply (Hhd c).
  - intros Hall. f_equal. apply first_None. intros c Hc [Huser Hid].
    by apply (Hall c).
Qed.

Lemma get_contact_by_id_Some (user : User.t) (contact_id : Z) (db db' : DB)
    (c : Contact.t) :
  get_contact_by_id user contact_id db = Returns (Some c) db' →
  db' = db ∧ c ∈ contacts db ∧
  Contact.user_id c = User.id user ∧ Contact.id c = contact_id.
Proof.
  rewrite run_get_contact_by_id. intros Hrun. injection Hrun as Hhd <-.
  apply first_Some_elem in Hhd. tauto.
Qed.

Lemma get_contact_by_id_owned (user : User.t) (db : DB) (c : Contact.t) :
  wf_db db → c ∈ contacts db → Contact.user_id c = User.id user →
  get_contact_by_id user (Contact.id c) db = Returns (Some c) db.
Proof.
  intros [Hnd _] Hc Huser. rewrite run_get_contact_by_id. f_equal.
  apply first_unique; [done..|].
  intros y Hy [_ Hid]. by apply (key_unique Contact.id (contacts db)).
Qed.

Lemma get_contact_by_id_cases (user : User.t) (contact_id : Z) (db : DB) :
  get_contact_by_id user contact_id db = Returns None db ∨
  ∃ c, get_contact_by_id user contact_id db = Returns (Some c) db.
Proof.
  rewrite run_get_contact_by_id.
  destruct (head _) as [c|]; [right; by exists c | by left].
Qed.

(** ** What each mutation does to the store *)

Lemma run_update_found (user : User.t) (contact_id : Z) (body : ContactModel.t)
    (db : DB) (old : Contact.t) :
  get_contact_by_id user contact_id db = Returns (Some old) db →
  update user contact_id body db =
  Returns (Some (updated old body)) (replace_contact (updated old body) db).
Proof. intros Hget. unfold update. rewrite run_bind, Hget. reflexivity. Qed.

Lemma run_update_absent (user : User.t) (contact_id : Z) (body : ContactModel.t)
    (db : DB) :
  get_contact_by_id user contact_id db = Returns None db →
  update user contact_id body db = Returns None db.
Proof. intros Hget. unfold update. rewrite run_bind, Hget. reflexivity. Qed.

Lemma run_set_favorite_found (user : User.t) (contact_id : Z)
    (body : ContactFavoriteModel.t) (db : DB) (old : Contact.t) :
  get_contact_by_id user contact_id db = Returns (Some old) db →
  let c' :=
    Contact.set_is_favorite (ContactFavoriteModel.is_favorite body) old in
  set_favorite user contact_id body db = Returns (Some c') (replace_contact c' db).
Proof. intros Hget. unfold set_favorite. rewrite run_bind, Hget. reflexivity. Qed.

Lemma run_set_favorite_absent (user : User.t) (contact_id : Z)
    (body : ContactFavoriteModel.t) (db : DB) :
  get_contact_by_id user contact_id db = Returns None db →
  set_favorite user contact_id body db = Returns None db.
Proof. intros Hget. unfold set_favorite. rewrite run_bind, Hget. reflexivity. Qed.

Lemma run_remove_found (user : User.t) (contact_id : Z) (db : DB)
    (old : Contact.t) :
  get_contact_by_id user contact_id db = Returns (Some old) db →
  remove user contact_id db = Returns (Some old) (without_contact old db).
Proof. intros Hget. unfold remove. rewrite run_bind, Hget. reflexivity. Qed.

Lemma run_remove_absent (user : User.t) (contact_id : Z) (db : DB) :
  get_contact_by_id user contact_id db = Returns None db →
  remove user contact_id db = Returns None db.
Proof. intros Hget. unfold remove. rewrite run_bind, Hget. reflexivity. Qed.

Lemma run_add_contact (pending : Z → Contact.t) (db : DB) :
  add_contact pending db =
  Returns (pending (next_contact_id db))
          (with_contact (pending (next_contact_id db)) db).
Proof. reflexivity. Qed.

Lemma run_refresh_contact (contact : Contact.t) (db : DB) :
  refresh_contact contact db =
  match head (filter (λ r, Contact.id r = Contact.id contact) (contacts db)) with
  | Some row => Returns row db
  | None => Raises InvalidRequestError db
  end.
Proof.
  unfold refresh_contact. rewrite run_bind, run_query_contacts.
  by destruct (head _).
Qed.

Lemma run_create (user : User.t) (body : ContactModel.t) (db : DB) :
  wf_db db →
  create user body db =
  Returns (created user body db) (with_contact (created user body db) db).
Proof.
  intros Hwf. unfold create.
  rewrite run_bind, run_add_contact, run_bind, run_refresh_contact.
  fold (created user body db). cbn [with_contact contacts].
  rewrite filter_app, filter_cons_True, filter_nil by done.
  replace (filter _ (contacts db)) with (@nil Contact.t); [reflexivity|].
  symmetry. apply head_None, first_None. intros c Hc Hid.
  by apply (wf_fresh db c).
Qed.

(** ** The table constraints survive every mutation *)

Lemma replace_contact_ids (c : Contact.t) (db : DB) :
  Contact.id <$> contacts (replace_contact c db) = Contact.id <$> contacts db.
Proof.
  simpl. rewrite <- list_fmap_compose. apply list_fmap_ext.
  intros i r _. simpl. by case_decide.
Qed.

Lemma wf_ids (db db' : DB) :
  Contact.id <$> contacts db' = Contact.id <$> contacts db →
  next_contact_id db' = next_contact_id db →
  wf_db db → wf_db db'.
Proof.
  intros Hids Hnext [Hnd Hlt]. split; [by rewrite Hids|].
  apply (Forall_fmap Contact.id (λ k, k < next_contact_id db')).
  rewrite Hids, Hnext. by apply Forall_fmap.
Qed.

Lemma wf_replace_contact (c : Contact.t) (db : DB) :
  wf_db db → wf_db (replace_contact c db).
Proof. apply wf_ids; [apply replace_contact_ids | done]. Qed.

Lemma wf_without_contact (c : Contact.t) (db : DB) :
  wf_db db → wf_db (without_contact c db).
Proof.
  intros [Hnd Hlt]. split; simpl.
  - eapply sublist_NoDup; [exact Hnd|]. apply fmap_sublist, sublist_filter.
  - apply Forall_forall. intros r Hr. apply list_elem_of_filter in Hr as [_ Hr].
    rewrite Forall_forall in Hlt. by apply Hlt.
Qed.

Lemma wf_with_contact (user : User.t) (body : ContactModel.t) (db : DB) :
  wf_db db → wf_db (with_contact (created user body db) db).
Proof.
  intros [Hnd Hlt]. split; simpl.
  - rewrite fmap_app. apply NoDup_app. split_and!; [done| |apply NoDup_singleton].
    intros k Hk Hk'. apply list_elem_of_singleton in Hk'. simpl in Hk'.
    apply list_elem_of_fmap in Hk as (r & -> & Hr).
    by apply (wf_fresh db r).
  - apply Forall_app. split.
    + eapply Forall_impl; [exact Hlt|]. simpl. intros; lia.
    + apply Forall_singleton. simpl. lia.
Qed.

Lemma wf_exec (o : op) (db : DB) : wf_db db → wf_db (exec o db).
Proof.
  intros Hwf. destruct o as [u b|u k b|u k|u k b]; simpl.
  - rewrite run_create by done. by apply wf_with_contact.
  - destruct (get_contact_by_id_cases u k db) as [Hget|[c Hget]].
    + by rewrite run_update_absent.
    + rewrite (run_update_found _ _ _ _ c) by done. by apply wf_replace_contact.
  - destruct (get_contact_by_id_cases u k db) as [Hget|[c Hget]].
    + by rewrite run_remove_absent.
    + rewrite (run_remove_found _ _ _ c) by done. by apply wf_without_contact.
  - destruct (get_contact_by_id_cases u k db) as [Hget|[c Hget]].
    + by rewrite run_set_favorite_absent.
    + rewrite (run_set_favorite_found _ _ _ _ c) by done.
      by apply wf_replace_contact.
Qed.


(** ** The row a mutation leaves in the table *)

Lemma replace_contact_elem (c r' : Contact.t) (db : DB) :
  r' ∈ contacts (replace_contact c db) →
  (r' = c ∧ ∃ r, r ∈ contacts db ∧ Contact.id r = Contact.id c) ∨
  (r' ∈ contacts db ∧ Contact.id r' ≠ Contact.id c).
Proof.
  simpl. intros (r & -> & Hr)%list_elem_of_fmap.
  case_decide; [left; eauto | by right].
Qed.

Lemma replace_contact_stored (c old : Contact.t) (db : DB) :
  old ∈ contacts db → Contact.id old = Contact.id c →
  c ∈ contacts (replace_contact c db).
Proof.
  intros Hold Hid. simpl. apply list_elem_of_fmap. exists old.
  by rewrite decide_True.
Qed.

Lemma replace_contact_at (c old : Contact.t) (i : nat) (db : DB) :
  wf_db db → contacts db !! i = Some old → Contact.id c = Contact.id old →
  contacts (replace_contact c db) = <[i:=c]> (contacts db).
Proof. intros [Hnd _] Hi Hid. by apply (update_by_key Contact.id) with old. Qed.

Lemma get_after_replace (user : User.t) (c old : Contact.t) (db : DB) :
  wf_db db → old ∈ contacts db → Contact.id c = Contact.id old →
  Contact.user_id c = User.id user →
  get_contact_by_id user (Contact.id old) (replace_contact c db) =
  Returns (Some c) (replace_contact c db).
Proof.
  intros Hwf Hold Hid Huser. rewrite <- Hid.
  apply get_contact_by_id_owned; [by apply wf_replace_contact| |done].
  by apply replace_contact_stored with old.
Qed.

Lemma without_contact_at (old : Contact.t) (i : nat) (db : DB) :
  wf_db db → contacts db !! i = Some old →
  contacts (without_contact old db) = delete i (contacts db).
Proof. intros [Hnd _] Hi. by apply (delete_by_key Contact.id). Qed.

Lemma get_after_remove (user : User.t) (old : Contact.t) (db : DB) :
  get_contact_by_id user (Contact.id old) (without_contact old db) =
  Returns None (without_contact old db).
Proof.
  apply get_contact_by_id_None. intros c Hc Hid.
  by apply (delete_by_key_gone Contact.id) in Hc.
Qed.

(** ** Contact operations *)

(** C6.  In a store that meets the table constraints, [create] returns a
    contact whose seven attributes are those of the input and whose key is
    freshly generated (no stored contact had it), and [get_contact_by_id]
    on that key under the same user returns exactly this contact. *)
Theorem create_then_get (user : User.t) (body : ContactModel.t) (db : DB) :
  wf_db db →
  ∃ c db',
    create user body db = Returns c db' ∧
    Contact.fields c = body ∧
    (∀ r, r ∈ contacts db → Contact.id r ≠ Contact.id c) ∧
    get_contact_by_id user (Contact.id c) db' = Returns (Some c) db'.
Proof.
  intros Hwf. exists (created user body db), (with_contact (created user body db) db).
  split_and!.
  - by apply run_create.
  - by destruct body.
  - intros r Hr. by apply wf_fresh.
  - apply get_contact_by_id_owned; [by apply wf_with_contact| |done].
    simpl. apply elem_of_app. right. by apply list_elem_of_singleton.
Qed.

(** C3.  For a stored contact owned by the caller, [update] returns a
    contact whose seven mutable attributes are all those of the new input,
    with the key and the owner of the old one; it takes the old row's place
    in the table and is what [get_contact_by_id] returns afterwards.  When
    no stored contact has the given key under the caller, [update] returns
    no value and leaves the store as it was. *)
Theorem update_full_replace (user : User.t) (contact_id : Z)
    (body : ContactModel.t) (db : DB) :
  wf_db db →
  (∀ old, old ∈ contacts db → Contact.user_id old = User.id user →
          Contact.id old = contact_id →
     ∃ c' db' i,
       update user contact_id body db = Returns (Some c') db' ∧
       Contact.firstname c' = ContactModel.firstname body ∧
       Contact.lastname c' = ContactModel.lastname body ∧
       Contact.email c' = ContactModel.email body ∧
       Contact.phone c' = ContactModel.phone body ∧
       Contact.birthday c' = ContactModel.birthday body ∧
       Contact.additional_info c' = ContactModel.additional_info body ∧
       Contact.is_favorite c' = ContactModel.is_favorite body ∧
       Contact.id c' = Contact.id old ∧
       Contact.user_id c' = Contact.user_id old ∧
       contacts db !! i = Some old ∧
       contacts db' = <[i:=c']> (contacts db) ∧
       get_contact_by_id user contact_id db' = Returns (Some c') db') ∧
  ((∀ r, r ∈ contacts db → Contact.id r = contact_id →
         Contact.user_id r ≠ User.id user) →
   update user contact_id body db = Returns None db).
Proof.
  intros Hwf. split.
  - intros old Hold Huser <-.
    pose proof (get_contact_by_id_owned user db old Hwf Hold Huser) as Hget.
    apply list_elem_of_lookup in Hold as Hi. destruct Hi as [i Hi].
    exists (updated old body), (replace_contact (updated old body) db), i.
    split_and!; try done.
    + by apply run_update_found.
    + by apply replace_contact_at with old.
    + by apply get_after_replace.
  - intros Habsent. by apply run_update_absent, get_contact_by_id_None.
Qed.

(** C5.  For a stored contact owned by the caller, [set_favorite] returns
    that contact with the favorite flag set to the given value and with
    its key, owner, names, email, phone, birthday and additional info
    untouched; the table changes at that row only. *)
Theorem set_favorite_frame (user : User.t) (body : ContactFavoriteModel.t)
    (db : DB) (old : Contact.t) :
  wf_db db → old ∈ contacts db → Contact.user_id old = User.id user →
  ∃ c' db' i,
    set_favorite user (Contact.id old) body db = Returns (Some c') db' ∧
    Contact.is_favorite c' = ContactFavoriteModel.is_favorite body ∧
    Contact.firstname c' = Contact.firstname old ∧
    Contact.lastname c' = Contact.lastname old ∧
    Contact.email c' = Contact.email old ∧
    Contact.phone c' = Contact.phone old ∧
    Contact.birthday c' = Contact.birthday old ∧
    Contact.additional_info c' = Contact.additional_info old ∧
    Contact.id c' = Contact.id old ∧
    Contact.user_id c' = Contact.user_id old ∧
    contacts db !! i = Some old ∧
    contacts db' = <[i:=c']> (contacts db) ∧
    users db' = users db ∧
    get_contact_by_id user (Contact.id old) db' = Returns (Some c') db'.
Proof.
  intros Hwf Hold Huser.
  pose proof (get_contact_by_id_owned user db old Hwf Hold Huser) as Hget.
  apply list_elem_of_lookup in Hold as Hi. destruct Hi as [i Hi].
  set (c' := Contact.set_is_favorite (ContactFavoriteModel.is_favorite body) old).
  exists c', (replace_contact c' db), i.
  split_and!; try done.
  - by apply run_set_favorite_found.
  - by apply replace_contact_at with old.
  - by apply get_after_replace.
Qed.

(** C7.  For a stored contact owned by the caller, [remove] returns that
    contact as it was stored and takes its row out of the table, after
    which [get_contact_by_id] on the same key returns no value.  When no
    stored contact has the given key under the caller, [remove] returns no
    value and leaves the store as it was. *)
Theorem remove_then_get (user : User.t) (contact_id : Z) (db : DB) :
  wf_db db →
  (∀ old, old ∈ contacts db → Contact.user_id old = User.id user →
          Contact.id old = contact_id →
     ∃ db' i,
       remove user contact_id db = Returns (Some old) db' ∧
       contacts db !! i = Some old ∧
       contacts db' = delete i (contacts db) ∧
       ¬ (old ∈ contacts db') ∧
       get_contact_by_id user contact_id db' = Returns None db') ∧
  ((∀ r, r ∈ contacts db → Contact.id r = contact_id →
         Contact.user_id r ≠ User.id user) →
   remove user contact_id db = Returns None db).
Proof.
  intros Hwf. split.
  - intros old Hold Huser <-.
    pose proof (get_contact_by_id_owned user db old Hwf Hold Huser) as Hget.
    apply list_elem_of_lookup in Hold as Hi. destruct Hi as [i Hi].
    exists (without_contact old db), i. split_and!; try done.
    + by apply run_remove_found.
    + by apply without_contact_at.
    + intros Hin. by apply (delete_by_key_gone Contact.id) in Hin.
    + apply get_after_remove.
  - intros Habsent. by apply run_remove_absent, get_contact_by_id_None.
Qed.

(** ** Ownership along a history *)

Lemma key_owned_replace (k a : Z) (user : User.t) (contact_id : Z)
    (old c : Contact.t) (db : DB) :
  get_contact_by_id user contact_id db = Returns (Some old) db →
  Contact.id c = Contact.id old → Contact.user_id c = Contact.user_id old →
  key_owned k a db → key_owned k a (replace_contact c db).
Proof.
  intros Hget Hid Huser [Hlt Hown]. split; [done|].
  apply get_contact_by_id_Some in Hget as (_ & Hold & _ & _).
  intros r' [[-> _]|[Hr' _]]%replace_contact_elem Hk.
  - rewrite Huser. apply Hown; [done|congruence].
  - by apply Hown.
Qed.

Lemma key_owned_exec (k a : Z) (o : op) (db : DB) :
  wf_db db → key_owned k a db → key_owned k a (exec o db).
Proof.
  intros Hwf Hown. destruct o as [u b|u cid b|u cid|u cid b]; simpl.
  - rewrite run_create by done. destruct Hown as [Hlt Hown]. split; simpl; [lia|].
    intros r [Hr| ->%list_elem_of_singleton]%elem_of_app Hk.
    + by apply Hown.
    + simpl in Hk. lia.
  - destruct (get_contact_by_id_cases u cid db) as [Hget|[c Hget]].
    + by rewrite run_update_absent.
    + rewrite (run_update_found _ _ _ _ c) by done.
      by apply key_owned_replace with u cid c.
  - destruct (get_contact_by_id_cases u cid db) as [Hget|[c Hget]].
    + by rewrite run_remove_absent.
    + rewrite (run_remove_found _ _ _ c) by done.
      destruct Hown as [Hlt Hown]. split; [done|].
      intros r [_ Hr]%list_elem_of_filter. by apply Hown.
  - destruct (get_contact_by_id_cases u cid db) as [Hget|[c Hget]].
    + by rewrite run_set_favorite_absent.
    + rewrite (run_set_favorite_found _ _ _ _ c) by done.
      by apply key_owned_replace with u cid c.
Qed.

Lemma key_owned_run (k a : Z) (ops : list op) (db : DB) :
  wf_db db → key_owned k a db → key_owned k a (run ops db).
Proof.
  revert db. induction ops as [|o ops IH]; intros db Hwf Hown; [done|].
  simpl. apply IH; [by apply wf_exec | by apply key_owned_exec].
Qed.

(** C1.  In a store that meets the table constraints, [create] under user
    A returns a contact, and from then on, after any further history of
    contact mutations by any users (including the removal of that
    contact), [get_contact_by_id] with that contact's key under a user B
    whose id differs from A's returns no value.  Likewise for any contact
    already stored under A's id. *)
Theorem get_by_other_user_absent (A B : User.t) (body : ContactModel.t)
    (db : DB) :
  wf_db db → User.id B ≠ User.id A →
  (∃ c db',
     create A body db = Returns c db' ∧
     ∀ ops, get_contact_by_id B (Contact.id c) (run ops db') =
            Returns None (run ops db')) ∧
  (∀ c, c ∈ contacts db → Contact.user_id c = User.id A →
        get_contact_by_id B (Contact.id c) db = Returns None db).
Proof.
  intros Hwf Hne. split; cycle 1.
  { intros c Hc Huser. apply get_contact_by_id_None. intros r Hr Hid HB.
    apply Hne. rewrite <- Huser, <- HB. f_equal. symmetry.
    destruct Hwf as [Hnd _]. by apply (key_unique Contact.id (contacts db)). }
  exists (created A body db), (with_contact (created A body db) db).
  split; [by apply run_create|]. intros ops.
  apply get_contact_by_id_None. intros r Hr Hid Huser.
  assert (key_owned (next_contact_id db) (User.id A) (run ops (with_contact (created A body db) db)))
    as [_ Hown].
  { apply key_owned_run; [by apply wf_with_contact|].
    split; simpl; [lia|].
    intros r' [Hr'| ->%list_elem_of_singleton]%elem_of_app Hk; [|done].
    by destruct (wf_fresh db r'). }
  apply Hne. rewrite <- Huser. by apply Hown.
Qed.

(** ** Key and owner are never rewritten *)

Lemma replace_contact_owners (user : User.t) (contact_id : Z)
    (old c : Contact.t) (db : DB) :
  wf_db db →
  get_contact_by_id user contact_id db = Returns (Some old) db →
  Contact.id c = Contact.id old → Contact.user_id c = Contact.user_id old →
  Contact.user_id <$> contacts (replace_contact c db) =
  Contact.user_id <$> contacts db.
Proof.
  intros [Hnd _] Hget Hid Huser.
  apply get_contact_by_id_Some in Hget as (_ & Hold & _ & _).
  simpl. rewrite <- list_fmap_compose. apply list_fmap_ext.
  intros i r Hr. simpl. case_decide as Hk; [|done].
  rewrite Huser. f_equal.
  apply (key_unique Contact.id (contacts db)); [done..| |congruence].
  by eapply list_elem_of_lookup_2.
Qed.

Lemma update_columns (user : User.t) (contact_id : Z) (body : ContactModel.t)
    (db : DB) :
  wf_db db →
  Contact.id <$> contacts (final (update user contact_id body db)) =
    Contact.id <$> contacts db ∧
  Contact.user_id <$> contacts (final (update user contact_id body db)) =
    Contact.user_id <$> contacts db.
Proof.
  intros Hwf.
  destruct (get_contact_by_id_cases user contact_id db) as [Hget|[c Hget]].
  - by rewrite run_update_absent.
  - rewrite (run_update_found _ _ _ _ c) by done. split.
    + apply replace_contact_ids.
    + by apply replace_contact_owners with user contact_id c.
Qed.

Lemma set_favorite_columns (user : User.t) (contact_id : Z)
    (body : ContactFavoriteModel.t) (db : DB) :
  wf_db db →
  Contact.id <$> contacts (final (set_favorite user contact_id body db)) =
    Contact.id <$> contacts db ∧
  Contact.user_id <$> contacts (final (set_favorite user contact_id body db)) =
    Contact.user_id <$> contacts db.
Proof.
  intros Hwf.
  destruct (get_contact_by_id_cases user contact_id db) as [Hget|[c Hget]].
  - by rewrite run_set_favorite_absent.
  - rewrite (run_set_favorite_found _ _ _ _ c) by done. split.
    + apply replace_contact_ids.
    + by apply replace_contact_owners with user contact_id c.
Qed.

(** A row of the table seen through its key and owner columns. *)
Lemma tracked_columns (db db' : DB) (creators : gmap Z Z) :
  Contact.id <$> contacts db' = Contact.id <$> contacts db →
  Contact.user_id <$> contacts db' = Contact.user_id <$> contacts db →
  next_contact_id db' = next_contact_id db →
  tracked db creators → tracked db' creators.
Proof.
  intros Hids Howners Hnext [Hrows Hkeys]. split.
  - intros c' [i Hi]%list_elem_of_lookup.
    assert ((Contact.id <$> contacts db) !! i = Some (Contact.id c')) as Hk
      by (by rewrite <- Hids, list_lookup_fmap, Hi).
    assert ((Contact.user_id <$> contacts db) !! i = Some (Contact.user_id c'))
      as Hu by (by rewrite <- Howners, list_lookup_fmap, Hi).
    rewrite list_lookup_fmap in Hk, Hu.
    destruct (contacts db !! i) as [c|] eqn:Hc; [|done].
    simpl in Hk, Hu. injection Hk as <-. injection Hu as <-.
    apply Hrows. by eapply list_elem_of_lookup_2.
  - intros k u Hk. rewrite Hnext. by eapply Hkeys.
Qed.

Lemma tracked_exec (o : op) (db : DB) (creators : gmap Z Z) :
  wf_db db → tracked db creators →
  tracked (exec o db) (record o db creators).
Proof.
  intros Hwf Htr. destruct o as [u b|u cid b|u cid|u cid b]; simpl.
  - rewrite run_create by done. destruct Htr as [Hrows Hkeys]. split; simpl.
    + intros r [Hr| ->%list_elem_of_singleton]%elem_of_app.
      * rewrite lookup_insert_ne by (symmetry; by apply wf_fresh).
        by apply Hrows.
      * simpl. by rewrite lookup_insert_eq.
    + intros k w. rewrite lookup_insert. case_decide as Hk.
      * intros _. lia.
      * intros Hw. apply Hkeys in Hw. lia.
  - destruct (update_columns u cid b db Hwf) as [Hids Howners].
    eapply tracked_columns; [exact Hids|exact Howners| |done].
    destruct (get_contact_by_id_cases u cid db) as [Hget|[c Hget]].
    + by rewrite run_update_absent.
    + by rewrite (run_update_found _ _ _ _ c).
  - destruct (get_contact_by_id_cases u cid db) as [Hget|[c Hget]].
    + by rewrite run_remove_absent.
    + rewrite (run_remove_found _ _ _ c) by done.
      destruct Htr as [Hrows Hkeys]. split; [|done].
      intros r [_ Hr]%list_elem_of_filter. by apply Hrows.
  - destruct (set_favorite_columns u cid b db Hwf) as [Hids Howners].
    eapply tracked_columns; [exact Hids|exact Howners| |done].
    destruct (get_contact_by_id_cases u cid db) as [Hget|[c Hget]].
    + by rewrite run_set_favorite_absent.
    + by rewrite (run_set_favorite_found _ _ _ _ c).
Qed.

Lemma record_keeps (o : op) (db : DB) (creators : gmap Z Z) (k u : Z) :
  wf_db db → tracked db creators →
  creators !! k = Some u → record o db creators !! k = Some u.
Proof.
  intros Hwf [_ Hkeys] Hk. destruct o as [w b| | |]; simpl; try done.
  rewrite run_create by done. simpl.
  rewrite lookup_insert_ne; [done|]. apply Hkeys in Hk. lia.
Qed.

Lemma tracked_run (ops : list op) (db : DB) (creators : gmap Z Z) :
  wf_db db → tracked db creators →
  tracked (run ops db) (creators_after ops db creators) ∧
  ∀ k u, creators !! k = Some u →
         creators_after ops db creators !! k = Some u.
Proof.
  revert db creators. induction ops as [|o ops IH]; intros db cr Hwf Htr.
  { by split. }
  simpl. destruct (IH (exec o db) (record o db cr)) as [Hfin Hkeep];
    [by apply wf_exec | by apply tracked_exec |].
  split; [done|]. intros k u Hk. apply Hkeep. by apply record_keeps.
Qed.

(** C10.  In a store that meets the table constraints, [create] returns a
    stored contact owned by the caller; [update] and [set_favorite] leave
    the key column and the owner column of the table as they were; and
    along any history of contact mutations the record of creators is never
    rewritten and names, for every contact in the store, the owner that
    contact has now. *)
Theorem ownership_preserved (db : DB) (creators : gmap Z Z) :
  wf_db db → tracked db creators →
  (∀ user body, ∃ c db',
     create user body db = Returns c db' ∧
     Contact.user_id c = User.id user ∧ c ∈ contacts db') ∧
  (∀ user contact_id body,
     Contact.id <$> contacts (final (update user contact_id body db)) =
       Contact.id <$> contacts db ∧
     Contact.user_id <$> contacts (final (update user contact_id body db)) =
       Contact.user_id <$> contacts db) ∧
  (∀ user contact_id body,
     Contact.id <$> contacts (final (set_favorite user contact_id body db)) =
       Contact.id <$> contacts db ∧
     Contact.user_id <$> contacts (final (set_favorite user contact_id body db)) =
       Contact.user_id <$> contacts db) ∧
  (∀ ops,
     (∀ c, c ∈ contacts (run ops db) →
           creators_after ops db creators !! Contact.id c =
           Some (Contact.user_id c)) ∧
     (∀ k u, creators !! k = Some u →
             creators_after ops db creators !! k = Some u)).
Proof.
  intros Hwf Htr. split_and!.
  - intros user body.
    exists (created user body db), (with_contact (created user body db) db).
    split_and!; [by apply run_create|done|].
    simpl. apply elem_of_app. right. by apply list_elem_of_singleton.
  - intros user cid body. by apply update_columns.
  - intros user cid body. by apply set_favorite_columns.
  - intros ops. destruct (tracked_run ops db creators Hwf Htr) as [[Hrows _] Hkeep].
    by split.
Qed.

(** ** User operations *)

Lemma get_user_by_email_None (email : string) (db : DB) :
  get_user_by_email email db = Returns None db ↔
  ∀ u, u ∈ users db → User.email u ≠ email.
Proof.
  rewrite run_get_user_by_email. split.
  - intros Hrun u Hu. injection Hrun as Hhd. rewrite first_None in Hhd.
    by apply Hhd.
  - intros Hall. f_equal. by apply first_None.
Qed.

Lemma get_user_by_email_found (email : string) (db : DB) (u : User.t) :
  u ∈ users db → User.email u = email →
  ∃ u0, get_user_by_email email db = Returns (Some u0) db ∧
        u0 ∈ users db ∧ User.email u0 = email.
Proof.
  intros Hu Hemail. rewrite run_get_user_by_email.
  destruct (head _) as [u0|] eqn:Hhd.
  - exists u0. by apply first_Some_elem in Hhd as [? ?].
  - rewrite first_None in Hhd. by destruct (Hhd u).
Qed.

Lemma run_confirmed_email_found (email : string) (db : DB) (u : User.t) :
  get_user_by_email email db = Returns (Some u) db →
  confirmed_email email db =
  Returns tt (replace_user (User.set_confirmed true u) db).
Proof. intros Hget. unfold confirmed_email. rewrite run_bind, Hget. reflexivity. Qed.

Lemma run_confirmed_email_absent (email : string) (db : DB) :
  get_user_by_email email db = Returns None db →
  confirmed_email email db = Raises (AttributeError "confirmed") db.
Proof. intros Hget. unfold confirmed_email. rewrite run_bind, Hget. reflexivity. Qed.

Lemma run_update_avatar_found (email url : string) (db : DB) (u : User.t) :
  get_user_by_email email db = Returns (Some u) db →
  update_avatar email url db =
  Returns (User.set_avatar url u) (replace_user (User.set_avatar url u) db).
Proof. intros Hget. unfold update_avatar. rewrite run_bind, Hget. reflexivity. Qed.

Lemma run_update_avatar_absent (email url : string) (db : DB) :
  get_user_by_email email db = Returns None db →
  update_avatar email url db = Raises (AttributeError "avatar") db.
Proof. intros Hget. unfold update_avatar. rewrite run_bind, Hget. reflexivity. Qed.

(** C4, as stated, fails: for an email that no user has, the lookup
    returns no value, but [confirmed_email] and [update_avatar] raise. *)
Lemma missing_user_raises :
  get_user_by_email "nobody@example.com" empty_db = Returns None empty_db ∧
  confirmed_email "nobody@example.com" empty_db =
    Raises (AttributeError "confirmed") empty_db ∧
  update_avatar "nobody@example.com" "http://img/a.png" empty_db =
    Raises (AttributeError "avatar") empty_db ∧
  ¬ (∃ r db', confirmed_email "nobody@example.com" empty_db = Returns r db') ∧
  ¬ (∃ r db', update_avatar "nobody@example.com" "http://img/a.png" empty_db =
              Returns r db').
Proof.
  split_and!; try reflexivity; intros (r & db' & Hrun); discriminate Hrun.
Qed.

(** C4, amended.  The contact operations never raise, and when no stored
    contact has the given key under the caller they return no value and
    leave the store as it was; so does [get_user_by_email] for an email
    that no user has.  [confirmed_email] and [update_avatar] have no
    absence result: they complete when a user with the email exists and
    raise [AttributeError] when none does. *)
Theorem absence_is_a_value (db : DB) :
  (∀ user contact_id body fav,
     (∃ o, get_contact_by_id user contact_id db = Returns o db) ∧
     (∃ o db', update user contact_id body db = Returns o db') ∧
     (∃ o db', remove user contact_id db = Returns o db') ∧
     (∃ o db', set_favorite user contact_id fav db = Returns o db')) ∧
  (∀ user contact_id body fav,
     (∀ r, r ∈ contacts db → Contact.id r = contact_id →
           Contact.user_id r ≠ User.id user) →
     get_contact_by_id user contact_id db = Returns None db ∧
     update user contact_id body db = Returns None db ∧
     remove user contact_id db = Returns None db ∧
     set_favorite user contact_id fav db = Returns None db) ∧
  (∀ email url,
     (∀ u, u ∈ users db → User.email u ≠ email) →
     get_user_by_email email db = Returns None db ∧
     confirmed_email email db = Raises (AttributeError "confirmed") db ∧
     update_avatar email url db = Raises (AttributeError "avatar") db) ∧
  (∀ email url u,
     u ∈ users db → User.email u = email →
     (∃ db', confirmed_email email db = Returns tt db') ∧
     (∃ u' db', update_avatar email url db = Returns u' db' ∧
                User.email u' = email ∧ User.avatar u' = url)).
Proof.
  split_and!.
  - intros user cid body fav.
    destruct (get_contact_by_id_cases user cid db) as [Hget|[c Hget]].
    + rewrite run_update_absent, run_remove_absent, run_set_favorite_absent,
        Hget by done. split_and!; by eauto.
    + rewrite (run_update_found _ _ _ _ c), (run_remove_found _ _ _ c),
        (run_set_favorite_found _ _ _ _ c), Hget by done. split_and!; by eauto.
  - intros user cid body fav Habsent.
    apply get_contact_by_id_None in Habsent.
    by rewrite run_update_absent, run_remove_absent, run_set_favorite_absent.
  - intros email url Habsent. apply get_user_by_email_None in Habsent.
    by rewrite run_confirmed_email_absent, run_update_avatar_absent.
  - intros email url u Hu Hemail.
    destruct (get_user_by_email_found email db u Hu Hemail) as (u0 & Hget & _ & He).
    rewrite (run_confirmed_email_found _ _ u0), (run_update_avatar_found _ _ _ u0)
      by done.
    split; [eauto|]. eexists _, _. split; [done|]. by destruct u0.
Qed.

(** ** Calendar *)

Lemma add_days_add (d : date) (n m : nat) :
  add_days d (n + m) = add_days (add_days d m) n.
Proof. unfold add_days. apply Nat.iter_add. Qed.

Lemma add_days_S (d : date) (n : nat) :
  add_days d (S n) = next_day (add_days d n).
Proof. reflexivity. Qed.

(** From the first of January the days run on within the month. *)
Lemma add_days_january (y : Z) (n : nat) :
  (n ≤ 30)%nat → add_days (Date y 1 1) n = Date y 1 (1 + Z.of_nat n).
Proof.
  induction n as [|n IH]; intros Hn; [done|].
  rewrite add_days_S, IH by lia. unfold next_day. simpl.
  rewrite (proj2 (Z.ltb_lt _ _)) by lia. f_equal. lia.
Qed.

(** Twelve days after the 20th of December is New Year's Day. *)
Lemma add_days_new_year (y : Z) :
  add_days (Date y 12 20) 12 = Date (y + 1) 1 1.
Proof. reflexivity. Qed.

Lemma window_elem (today d : date) (shift : Z) :
  d ∈ window today shift ↔
  ∃ k : nat, Z.of_nat k ≤ shift ∧ d = add_days today k.
Proof.
  unfold window. destruct (Z.ltb_spec shift 0) as [Hneg|Hpos].
  - split; [by intros ?%elem_of_nil|]. intros (k & Hk & _). lia.
  - rewrite list_elem_of_fmap. split.
    + intros (k & -> & Hk%elem_of_seq). exists k. split; [lia|done].
    + intros (k & Hk & ->). exists k. split; [done|]. apply elem_of_seq. lia.
Qed.

Lemma birthday_in_window_spec (today b : date) (shift : Z) :
  birthday_in_window today shift b = true ↔
  ∃ k : nat, Z.of_nat k ≤ shift ∧
             month (add_days today k) = month b ∧
             day (add_days today k) = day b.
Proof.
  unfold birthday_in_window. rewrite existsb_exists. split.
  - intros (d & Hd%list_elem_of_In%window_elem & Hmd).
    destruct Hd as (k & Hk & ->). exists k.
    unfold same_month_day in Hmd. apply andb_true_iff in Hmd as [Hm Hday].
    split_and!; [done|by apply Z.eqb_eq..].
  - intros (k & Hk & Hm & Hday). exists (add_days today k). split.
    + apply list_elem_of_In, window_elem. by exists k.
    + unfold same_month_day. apply andb_true_iff. by rewrite !Z.eqb_eq.
Qed.

(** ** Text *)

Lemma append_cons (a : ascii) (s t : string) :
  String a s +:+ t = String a (s +:+ t).
Proof. reflexivity. Qed.

Lemma prefix_spec (s1 s2 : string) :
  String.prefix s1 s2 = true ↔ ∃ post, s2 = s1 +:+ post.
Proof.
  revert s2. induction s1 as [|a s1 IH]; intros s2.
  - destruct s2; split; eauto.
  - destruct s2 as [|b s2]; simpl.
    + split; [done|]. by intros [post ?].
    + destruct (ascii_dec a b) as [->|Hne].
      * rewrite IH. split; intros [post Hpost]; exists post;
          rewrite append_cons in *; congruence.
      * split; [done|]. intros [post Hpost]. rewrite append_cons in Hpost.
        congruence.
Qed.

Lemma contains_spec (needle hay : string) :
  contains needle hay = true ↔ ∃ pre post, hay = pre +:+ needle +:+ post.
Proof.
  induction hay as [|a hay IH]; cbn [contains].
  - rewrite orb_false_r, prefix_spec. split.
    + intros [post Hpost]. by exists "", post.
    + intros (pre & post & Heq). destruct pre; [by exists post|done].
  - rewrite orb_true_iff, IH. split.
    + intros [[post Hpost]%prefix_spec|(pre & post & ->)].
      * by exists "", post.
      * exists (String a pre), post. by rewrite append_cons.
    + intros (pre & post & Heq). destruct pre as [|b pre].
      * left. apply prefix_spec. by exists post.
      * right. exists pre, post. rewrite append_cons in Heq. congruence.
Qed.

(** ** Search *)

Lemma run_birthday_window (today : date) (user : User.t) (shift : Z) (db : DB) :
  birthday_window today user shift db =
  Returns (filter (λ c, Contact.user_id c = User.id user ∧
                        birthday_in_window today shift (Contact.birthday c) = true)
                  (contacts db)) db.
Proof. reflexivity. Qed.

Lemma run_partial_match (user : User.t) (text : string) (db : DB) :
  partial_match user text db =
  Returns (filter (λ c, Contact.user_id c = User.id user ∧
                        (icontains text (Contact.firstname c)
                         || icontains text (Contact.lastname c)
                         || icontains text (Contact.email c)
                         || icontains text (Contact.phone c)) = true)
                  (contacts db)) db.
Proof. reflexivity. Qed.

(** C2.  [birthday_window] returns, in storage order, exactly the stored
    contacts of the caller whose birthday has the month and day of one of
    the calendar days [today], [today + 1], ..., [today + shift_days].
    With [shift_days = 0] these are the contacts whose birthday has today's
    month and day.  A window that starts on the 20th of December, whatever
    the year, with [shift_days = 40] runs over the year boundary and takes
    in every birthday from the 1st to the 29th of January. *)
Theorem birthday_window_exact (today : date) (user : User.t) (shift : Z)
    (db : DB) :
  ∃ l,
    birthday_window today user shift db = Returns l db ∧
    l `sublist_of` contacts db ∧
    (∀ c, c ∈ l ↔
          c ∈ contacts db ∧ Contact.user_id c = User.id user ∧
          ∃ k : nat, Z.of_nat k ≤ shift ∧
            month (add_days today k) = month (Contact.birthday c) ∧
            day (add_days today k) = day (Contact.birthday c)) ∧
    (shift = 0 →
     ∀ c, c ∈ l ↔
          c ∈ contacts db ∧ Contact.user_id c = User.id user ∧
          month (Contact.birthday c) = month today ∧
          day (Contact.birthday c) = day today) ∧
    (month today = 12 → day today = 20 → shift = 40 →
     ∀ c, c ∈ contacts db → Contact.user_id c = User.id user →
          month (Contact.birthday c) = 1 →
          1 ≤ day (Contact.birthday c) ≤ 29 →
          c ∈ l).
Proof.
  eexists. split; [apply run_birthday_window|].
  assert (∀ c, c ∈ filter (λ c, Contact.user_id c = User.id user ∧
                 birthday_in_window today shift (Contact.birthday c) = true)
                 (contacts db) ↔
          c ∈ contacts db ∧ Contact.user_id c = User.id user ∧
          ∃ k : nat, Z.of_nat k ≤ shift ∧
            month (add_days today k) = month (Contact.birthday c) ∧
            day (add_days today k) = day (Contact.birthday c)) as Hiff.
  { intros c. rewrite list_elem_of_filter, birthday_in_window_spec. tauto. }
  split_and!.
  - apply sublist_filter.
  - exact Hiff.
  - intros -> c. rewrite Hiff. split.
    + intros (Hc & Huser & k & Hk & Hm & Hd).
      assert (k = 0%nat) as -> by lia. by simpl in Hm, Hd.
    + intros (Hc & Huser & Hm & Hd). split_and!; [done..|].
      exists 0%nat. by simpl.
  - intros Hm Hd -> c Hc Huser Hbm Hbd. apply Hiff. split_and!; [done..|].
    exists (Z.to_nat (day (Contact.birthday c) - 1) + 12)%nat.
    destruct today as [y m d]. simpl in Hm, Hd. subst m d.
    rewrite add_days_add, add_days_new_year, add_days_january by lia.
    simpl. split_and!; [lia|done|lia].
Qed.

(** C8.  [partial_match] returns, in storage order, exactly the stored
    contacts of the caller for which the lower-cased text occurs inside
    the lower-cased first name, last name, email or phone.  In the sample
    address book, "smith" finds the contact with last name "Smith" and the
    one with email "bobsmith@x.com", and not the one named "Smythe". *)
Theorem partial_match_exact (user : User.t) (text : string) (db : DB) :
  (∃ l,
     partial_match user text db = Returns l db ∧
     l `sublist_of` contacts db ∧
     ∀ c, c ∈ l ↔
          c ∈ contacts db ∧ Contact.user_id c = User.id user ∧
          ∃ field,
            field ∈ [Contact.firstname c; Contact.lastname c;
                     Contact.email c; Contact.phone c] ∧
            ∃ pre post, lower field = pre +:+ lower text +:+ post) ∧
  partial_match alice "smith" sample_db =
    Returns [stored 1 alice anna; stored 2 alice bobby] sample_db.
Proof.
  split; [|reflexivity].
  eexists. split; [apply run_partial_match|]. split; [apply sublist_filter|].
  intros c. rewrite list_elem_of_filter, !orb_true_iff.
  unfold icontains. rewrite !contains_spec. split.
  - intros [[Huser Hmatch] Hc]. split_and!; [done..|].
    destruct Hmatch as [[[H|H]|H]|H]; eexists; (split; [|exact H]);
      rewrite !elem_of_cons; tauto.
  - intros (Hc & Huser & field & Hfield & Hmatch). split_and!; [done| |done].
    rewrite !elem_of_cons in Hfield.
    destruct Hfield as [->|[->|[->|[->|[]%elem_of_nil]]]]; tauto.
Qed.

(** C9.  [birthday_window] always returns a sequence and never raises:
    when no stored contact of the caller falls in the window the result is
    the empty sequence.  The handler raises the 404 failure only when the
    repository hands it [None]; a sequence, empty or not, is passed on.
    For the sample address book on the 20th of December with
    [shift_days = 10]: Alice gets her contact 1, Bob gets the empty
    sequence. *)
Theorem empty_window_is_a_value (today : date) (user : User.t) (shift : Z)
    (db : DB) :
  (∃ l, birthday_window today user shift db = Returns l db) ∧
  ((∀ c, c ∈ contacts db → Contact.user_id c = User.id user →
         ¬ ∃ k : nat, Z.of_nat k ≤ shift ∧
             month (add_days today k) = month (Contact.birthday c) ∧
             day (add_days today k) = day (Contact.birthday c)) →
   birthday_window today user shift db = Returns [] db) ∧
  (∀ (repository_get_birthday_list : User.t → Z → M (option (list Contact.t))),
     (∀ l db',
        repository_get_birthday_list user shift db = Returns (Some l) db' →
        routes_search.get_birthday_list repository_get_birthday_list
          shift user db = Returns l db') ∧
     (∀ e db',
        routes_search.get_birthday_list repository_get_birthday_list
          shift user db = Raises e db' →
        repository_get_birthday_list user shift db = Raises e db' ∨
        (repository_get_birthday_list user shift db = Returns None db' ∧
         e = HTTPException 404 "Not Found"))) ∧
  birthday_window (Date 2023 12 20) alice 10 sample_db =
    Returns [stored 1 alice anna] sample_db ∧
  birthday_window (Date 2023 12 20) bob 10 sample_db = Returns [] sample_db.
Proof.
  split_and!; [| | |reflexivity..].
  - eexists. apply run_birthday_window.
  - intros Hnone. rewrite run_birthday_window. f_equal.
    apply head_None, first_None. intros c Hc [Huser Hin].
    apply (Hnone c Hc Huser). by apply birthday_in_window_spec.
  - intros repo. unfold routes_search.get_birthday_list. split.
    + intros l db' Hrepo. by rewrite run_bind, Hrepo.
    + intros e db' Hraise. rewrite run_bind in Hraise.
      destruct (repo user shift db) as [[l|] db1|e1 db1].
      * discriminate Hraise.
      * injection Hraise as <- <-. by right.
      * injection Hraise as <- <-. by left.
Qed.

(** ** The theorems at work on the sample address book *)

Lemma sample_contacts :
  contacts sample_db =
  [stored 1 alice anna; stored 2 alice bobby; stored 3 alice carol].
Proof. reflexivity. Qed.

(** Settle a decidable statement about concrete data by evaluation. *)
Ltac by_evaluation := apply (bool_decide_unpack _); vm_compute; exact I.

Lemma get_by_other_user_absent_witness :
  wf_db sample_db ∧ User.id bob ≠ User.id alice ∧
  get_contact_by_id bob 1 sample_db = Returns None sample_db.
Proof.
  assert (wf_db sample_db) as Hwf by by_evaluation.
  assert (User.id bob ≠ User.id alice) as Hne by (simpl; lia).
  split_and!; [done..|].
  destruct (get_by_other_user_absent alice bob anna sample_db Hwf Hne)
    as [_ Hstored].
  apply (Hstored (stored 1 alice anna)); [|reflexivity].
  by_evaluation.
Defined.

Lemma create_then_get_witness :
  wf_db sample_db ∧
  ∃ c db', create bob carol sample_db = Returns c db' ∧
           Contact.fields c = carol ∧ Contact.id c = 4 ∧
           get_contact_by_id bob 4 db' = Returns (Some c) db'.
Proof.
  assert (wf_db sample_db) as Hwf by by_evaluation.
  split; [done|].
  destruct (create_then_get bob carol sample_db Hwf)
    as (c & db' & Hrun & Hfields & _ & Hget).
  exists c, db'. rewrite (run_create _ _ _ Hwf) in Hrun.
  injection Hrun as <- <-. by split_and!.
Defined.

Lemma update_full_replace_witness :
  wf_db sample_db ∧
  (∃ c' db', update alice 2 carol sample_db = Returns (Some c') db' ∧
             Contact.fields c' = carol ∧ Contact.id c' = 2) ∧
  update bob 2 carol sample_db = Returns None sample_db.
Proof.
  assert (wf_db sample_db) as Hwf by by_evaluation.
  split; [done|]. split.
  - destruct (update_full_replace alice 2 carol sample_db Hwf) as [Hfound _].
    destruct (Hfound (stored 2 alice bobby))
      as (c' & db' & i & Hrun & Hf1 & Hf2 & Hf3 & Hf4 & Hf5 & Hf6 & Hf7 & Hid & _);
      [by_evaluation|reflexivity..|].
    exists c', db'. split_and!; [done| |done].
    destruct c'; simpl in *. by subst.
  - destruct (update_full_replace bob 2 carol sample_db Hwf) as [_ Habsent].
    apply Habsent. intros r Hr _. rewrite sample_contacts in Hr.
    rewrite !elem_of_cons in Hr.
    destruct Hr as [->|[->|[->|[]%elem_of_nil]]]; simpl; lia.
Defined.

Lemma set_favorite_frame_witness :
  wf_db sample_db ∧ stored 2 alice bobby ∈ contacts sample_db ∧
  ∃ c' db', set_favorite alice 2 (ContactFavoriteModel.Build false) sample_db =
              Returns (Some c') db' ∧
            Contact.is_favorite c' = false ∧
            Contact.email c' = "bobsmith@x.com" ∧
            Contact.birthday c' = Date 1985 1 5.
Proof.
  assert (wf_db sample_db) as Hwf by by_evaluation.
  assert (stored 2 alice bobby ∈ contacts sample_db) as Hin by by_evaluation.
  split_and!; [done..|].
  destruct (set_favorite_frame alice (ContactFavoriteModel.Build false)
              sample_db (stored 2 alice bobby) Hwf Hin eq_refl)
    as (c' & db' & i & Hrun & Hfav & _ & _ & Hemail & _ & Hbirthday & _).
  exists c', db'. by split_and!.
Defined.

Lemma remove_then_get_witness :
  wf_db sample_db ∧
  (∃ db', remove alice 1 sample_db = Returns (Some (stored 1 alice anna)) db' ∧
          get_contact_by_id alice 1 db' = Returns None db') ∧
  remove bob 1 sample_db = Returns None sample_db.
Proof.
  assert (wf_db sample_db) as Hwf by by_evaluation.
  split; [done|]. split.
  - destruct (remove_then_get alice 1 sample_db Hwf) as [Hfound _].
    destruct (Hfound (stored 1 alice anna))
      as (db' & i & Hrun & _ & _ & _ & Hget); [by_evaluation|reflexivity..|].
    by exists db'.
  - destruct (remove_then_get bob 1 sample_db Hwf) as [_ Habsent].
    apply Habsent. intros r Hr _. rewrite sample_contacts in Hr.
    rewrite !elem_of_cons in Hr.
    destruct Hr as [->|[->|[->|[]%elem_of_nil]]]; simpl; lia.
Defined.

Lemma tracked_empty : tracked empty_db ∅.
Proof.
  split.
  - intros c Hc. by apply elem_of_nil in Hc.
  - intros k u Hk. by rewrite lookup_empty in Hk.
Qed.

Lemma ownership_preserved_witness :
  wf_db empty_db ∧ tracked empty_db ∅ ∧
  ∀ c, c ∈ contacts (run history empty_db) →
       creators_after history empty_db ∅ !! Contact.id c =
       Some (Contact.user_id c).
Proof.
  assert (wf_db empty_db) as Hwf by by_evaluation.
  split_and!; [done|apply tracked_empty|].
  destruct (ownership_preserved empty_db ∅ Hwf tracked_empty)
    as (_ & _ & _ & Hhistory).
  by destruct (Hhistory history) as [Hrows _].
Defined.

Lemma absence_is_a_value_witness :
  update bob 1 carol sample_db = Returns None sample_db ∧
  confirmed_email "carol@x.com" sample_db =
    Raises (AttributeError "confirmed") sample_db ∧
  ∃ db', confirmed_email "alice@x.com" sample_db = Returns tt db'.
Proof.
  destruct (absence_is_a_value sample_db) as (_ & Hcontacts & Hnobody & Hsomebody).
  split_and!.
  - destruct (Hcontacts bob 1 carol (ContactFavoriteModel.Build true))
      as (_ & Hupdate & _); [|done].
    intros r Hr _. rewrite sample_contacts in Hr. rewrite !elem_of_cons in Hr.
    destruct Hr as [->|[->|[->|[]%elem_of_nil]]]; simpl; lia.
  - destruct (Hnobody "carol@x.com" "") as (_ & Hconfirm & _); [|done].
    intros u Hu. change (users sample_db) with [alice; bob] in Hu.
    rewrite !elem_of_cons in Hu.
    destruct Hu as [->|[->|[]%elem_of_nil]]; discriminate.
  - destruct (Hsomebody "alice@x.com" "" alice) as [Hconfirm _];
      [by_evaluation|reflexivity|done].
Defined.

Lemma birthday_window_exact_witness :
  ∃ l, birthday_window (Date 2023 12 20) alice 40 sample_db = Returns l sample_db ∧
       stored 2 alice bobby ∈ l ∧ ¬ (stored 3 alice carol ∈ l).
Proof.
  destruct (birthday_window_exact (Date 2023 12 20) alice 40 sample_db)
    as (l & Hrun & _ & Hiff & _ & Hboundary).
  exists l. split_and!; [done| |].
  - apply Hboundary; [reflexivity..|by_evaluation|reflexivity|reflexivity|simpl; lia].
  - rewrite run_birthday_window in Hrun. injection Hrun as <-.
    by_evaluation.
Defined.

Lemma partial_match_exact_witness :
  ∃ l, partial_match alice "SMITH" sample_db = Returns l sample_db ∧
       stored 1 alice anna ∈ l.
Proof.
  destruct (partial_match_exact alice "SMITH" sample_db)
    as [(l & Hrun & _ & Hiff) _].
  exists l. split; [done|]. apply Hiff. split_and!; [by_evaluation|reflexivity|].
  exists "Smith". split; [by_evaluation|]. by exists "", "".
Defined.

Lemma empty_window_is_a_value_witness :
  birthday_window (Date 2023 12 20) bob 10 sample_db = Returns [] sample_db.
Proof.
  destruct (empty_window_is_a_value (Date 2023 12 20) bob 10 sample_db)
    as (_ & Hempty & _).
  apply Hempty. intros c Hc Huser. exfalso.
  rewrite sample_contacts in Hc. rewrite !elem_of_cons in Hc.
  destruct Hc as [->|[->|[->|[]%elem_of_nil]]]; simpl in Huser; lia.
Defined.

(** * Further properties of the code *)

(** ** Listing contacts *)

Lemma run_get_contacts (user : User.t) (limit offset : nat) (db : DB) :
  get_contacts user limit offset db =
  Returns (take limit (drop offset (owned_rows (User.id user) db))) db.
Proof. reflexivity. Qed.

(** X1.  [get_contacts] leaves the store alone and returns at most [limit]
    contacts, each of them stored and owned by the caller, in storage
    order. *)
Theorem get_contacts_owned (user : User.t) (limit offset : nat) (db : DB) :
  ∃ l,
    get_contacts user limit offset db = Returns l db ∧
    (length l ≤ limit)%nat ∧
    l `sublist_of` contacts db ∧
    ∀ c, c ∈ l → c ∈ contacts db ∧ Contact.user_id c = User.id user.
Proof.
  eexists. split; [apply run_get_contacts|].
  assert (take limit (drop offset (owned_rows (User.id user) db))
            `sublist_of` owned_rows (User.id user) db) as Hsub.
  { etrans; [apply sublist_take | apply sublist_drop]. }
  split_and!.
  - rewrite length_take. lia.
  - etrans; [exact Hsub|]. apply sublist_filter.
  - intros c Hc. eapply elem_of_sublist in Hc; [|exact Hsub].
    apply list_elem_of_filter in Hc. tauto.
Qed.

(** X2.  Consecutive pages tile the listing: the page of [n] contacts at
    [offset] followed by the page of [m] contacts at [offset + n] is the
    page of [n + m] contacts at [offset]; a page that starts at or past
    the number of stored contacts is empty. *)
Theorem get_contacts_pages (user : User.t) (n m offset : nat) (db : DB) :
  (∃ l1 l2,
     get_contacts user n offset db = Returns l1 db ∧
     get_contacts user m (offset + n) db = Returns l2 db ∧
     get_contacts user (n + m) offset db = Returns (l1 ++ l2) db) ∧
  ((length (contacts db) ≤ offset)%nat →
   get_contacts user n offset db = Returns [] db).
Proof.
  split.
  - eexists _, _. rewrite !run_get_contacts. split_and!; [done..|].
    f_equal. rewrite <- drop_drop. symmetry. apply take_take_drop.
  - intros Hlen. rewrite run_get_contacts. f_equal.
    rewrite drop_ge; [by destruct n|].
    etrans; [apply length_filter|done].
Qed.

Lemma run_get_contacts_all (user : User.t) (db : DB) :
  get_contacts user (length (contacts db)) 0 db =
  Returns (owned_rows (User.id user) db) db.
Proof.
  rewrite run_get_contacts. f_equal. rewrite drop_0. apply take_ge.
  apply length_filter.
Qed.

(** X3.  In a store that meets the table constraints, the complete listing
    of a user and the lookup by key agree: a contact is in the listing
    exactly when [get_contact_by_id] under that user returns it for its
    key. *)
Theorem listing_agrees_with_lookup (user : User.t) (db : DB) :
  wf_db db →
  ∃ l,
    get_contacts user (length (contacts db)) 0 db = Returns l db ∧
    ∀ c, c ∈ l ↔
         get_contact_by_id user (Contact.id c) db = Returns (Some c) db.
Proof.
  intros Hwf. eexists. split; [apply run_get_contacts_all|].
  intros c. unfold owned_rows. rewrite list_elem_of_filter. split.
  - intros [Huser Hc]. by apply get_contact_by_id_owned.
  - intros (_ & Hc & Huser & _)%get_contact_by_id_Some. by split.
Qed.

(** ** What a mutation does to the rows of one owner *)

Section Rows.
Context {A : Type} (P : A → Prop) `{!∀ x, Decision (P x)}.

Lemma filter_fmap_outside (f : A → A) (l : list A) :
  (∀ r, r ∈ l → f r = r ∨ (¬ P r ∧ ¬ P (f r))) →
  filter P (f <$> l) = filter P l.
Proof.
  induction l as [|x l IH]; intros Hf; [done|].
  rewrite fmap_cons.
  assert (filter P (f <$> l) = filter P l) as Htail.
  { apply IH. intros r Hr. apply Hf. by right. }
  destruct (Hf x) as [Hx|[Hx Hfx]]; [by left| |].
  - rewrite Hx, !filter_cons. by rewrite Htail.
  - by rewrite !filter_cons_False.
Qed.

Lemma filter_filter_outside (Q : A → Prop) `{!∀ x, Decision (Q x)}
    (l : list A) :
  (∀ r, r ∈ l → P r → Q r) → filter P (filter Q l) = filter P l.
Proof.
  induction l as [|x l IH]; intros HPQ; [done|].
  assert (filter P (filter Q l) = filter P l) as Htail.
  { apply IH. intros r Hr. apply HPQ. by right. }
  destruct (decide (Q x)) as [HQ|HQ].
  - rewrite (filter_cons_True Q) by done. rewrite !(filter_cons P).
    by rewrite Htail.
  - rewrite (filter_cons_False Q) by done.
    rewrite (filter_cons_False P); [done|].
    intros HP. apply HQ, HPQ; [by left|done].
Qed.
End Rows.

Lemma owned_rows_create (a : Z) (user : User.t) (body : ContactModel.t)
    (db : DB) :
  owned_rows a (with_contact (created user body db) db) =
  owned_rows a db ++
  (if decide (User.id user = a) then [created user body db] else []).
Proof.
  unfold owned_rows. cbn [with_contact contacts]. rewrite filter_app.
  by f_equal.
Qed.

Lemma owned_rows_replace (a : Z) (user : User.t) (contact_id : Z)
    (old c : Contact.t) (db : DB) :
  wf_db db →
  get_contact_by_id user contact_id db = Returns (Some old) db →
  Contact.id c = Contact.id old → Contact.user_id c = Contact.user_id old →
  User.id user ≠ a →
  owned_rows a (replace_contact c db) = owned_rows a db.
Proof.
  intros [Hnd _] Hget Hid Huser Hne.
  apply get_contact_by_id_Some in Hget as (_ & Hold & Hown & _).
  unfold owned_rows. simpl. apply filter_fmap_outside.
  intros r Hr. case_decide as Hk; [right|by left].
  assert (r = old) as ->.
  { apply (key_unique Contact.id (contacts db)); [done..|congruence]. }
  split; congruence.
Qed.

Lemma owned_rows_remove (a : Z) (user : User.t) (contact_id : Z)
    (old : Contact.t) (db : DB) :
  wf_db db →
  get_contact_by_id user contact_id db = Returns (Some old) db →
  User.id user ≠ a →
  owned_rows a (without_contact old db) = owned_rows a db.
Proof.
  intros [Hnd _] Hget Hne.
  apply get_contact_by_id_Some in Hget as (_ & Hold & Hown & _).
  unfold owned_rows. simpl. apply filter_filter_outside.
  intros r Hr Ha Hk. apply Hne. rewrite <- Hown, <- Ha. f_equal.
  apply (key_unique Contact.id (contacts db)); done.
Qed.

Lemma owned_rows_exec (a : Z) (o : op) (db : DB) :
  wf_db db → User.id (op_user o) ≠ a →
  owned_rows a (exec o db) = owned_rows a db.
Proof.
  intros Hwf Hne. destruct o as [u b|u cid b|u cid|u cid b]; simpl in *.
  - rewrite run_create by done. simpl. rewrite owned_rows_create.
    rewrite decide_False by done. apply app_nil_r.
  - destruct (get_contact_by_id_cases u cid db) as [Hget|[c Hget]].
    + by rewrite run_update_absent.
    + rewrite (run_update_found _ _ _ _ c) by done.
      by apply owned_rows_replace with u cid c.
  - destruct (get_contact_by_id_cases u cid db) as [Hget|[c Hget]].
    + by rewrite run_remove_absent.
    + rewrite (run_remove_found _ _ _ c) by done.
      by apply owned_rows_remove with u cid.
  - destruct (get_contact_by_id_cases u cid db) as [Hget|[c Hget]].
    + by rewrite run_set_favorite_absent.
    + rewrite (run_set_favorite_found _ _ _ _ c) by done.
      by apply owned_rows_replace with u cid c.
Qed.

(** X4.  Writes are isolated by owner: in a store that meets the table
    constraints, a history of [create], [update], [remove] and
    [set_favorite] calls none of which is made by user [a] leaves the
    contacts of [a] exactly as they were, whatever keys those calls
    name. *)
Theorem writes_isolated (a : Z) (ops : list op) (db : DB) :
  wf_db db →
  (∀ o, o ∈ ops → User.id (op_user o) ≠ a) →
  owned_rows a (run ops db) = owned_rows a db.
Proof.
  revert db. induction ops as [|o ops IH]; intros db Hwf Hothers; [done|].
  simpl. rewrite IH.
  - apply owned_rows_exec; [done|]. apply Hothers. by left.
  - by apply wf_exec.
  - intros o' Ho'. apply Hothers. by right.
Qed.

(** X5.  In a store that meets the table constraints, [create] puts the
    new contact at the end of the caller's complete listing and leaves the
    listing of every other user as it was. *)
Theorem create_extends_listing (user other : User.t) (body : ContactModel.t)
    (db : DB) :
  wf_db db → User.id other ≠ User.id user →
  ∃ c db' l l',
    create user body db = Returns c db' ∧
    get_contacts user (length (contacts db)) 0 db = Returns l db ∧
    get_contacts user (length (contacts db')) 0 db' = Returns (l ++ [c]) db' ∧
    get_contacts other (length (contacts db)) 0 db = Returns l' db ∧
    get_contacts other (length (contacts db')) 0 db' = Returns l' db'.
Proof.
  intros Hwf Hne. eexists _, _, _, _.
  split; [by apply run_create|].
  rewrite !run_get_contacts_all, !owned_rows_create.
  rewrite decide_True, decide_False by done. rewrite app_nil_r.
  by split_and!.
Qed.

(** ** How the contact mutations compose *)

Lemma replace_replace (c c' : Contact.t) (db : DB) :
  Contact.id c' = Contact.id c →
  replace_contact c' (replace_contact c db) = replace_contact c' db.
Proof.
  intros Hid. unfold replace_contact. simpl. f_equal.
  rewrite <- list_fmap_compose. apply list_fmap_ext. intros i r _. simpl.
  rewrite Hid. repeat case_decide; congruence.
Qed.

(** X6.  A full update overrides whatever was written to the contact
    before: on a stored contact of the caller, [update] after an earlier
    [update] or [set_favorite] gives the same result and the same store as
    that [update] alone; and [set_favorite] after [update] gives what one
    [update] with the flag put into the body gives. *)
Theorem last_write_wins (user : User.t) (old : Contact.t)
    (b1 b2 : ContactModel.t) (fav : ContactFavoriteModel.t) (db : DB) :
  wf_db db → old ∈ contacts db → Contact.user_id old = User.id user →
  update user (Contact.id old) b2
         (final (update user (Contact.id old) b1 db)) =
    update user (Contact.id old) b2 db ∧
  update user (Contact.id old) b2
         (final (set_favorite user (Contact.id old) fav db)) =
    update user (Contact.id old) b2 db ∧
  set_favorite user (Contact.id old) fav
         (final (update user (Contact.id old) b1 db)) =
    update user (Contact.id old)
           (with_favorite (ContactFavoriteModel.is_favorite fav) b1) db.
Proof.
  intros Hwf Hold Huser.
  pose proof (get_contact_by_id_owned user db old Hwf Hold Huser) as Hget.
  rewrite (run_update_found _ _ b1 _ old Hget),
    (run_update_found _ _ b2 _ old Hget),
    (run_set_favorite_found _ _ fav _ old Hget),
    (run_update_found _ _ (with_favorite _ _) _ old Hget).
  cbn [final]. split_and!.
  - rewrite (run_update_found _ _ b2 _ (updated old b1))
      by (by apply get_after_replace).
    f_equal. by apply replace_replace.
  - rewrite (run_update_found _ _ b2 _
               (Contact.set_is_favorite (ContactFavoriteModel.is_favorite fav) old))
      by (by apply get_after_replace).
    f_equal. by apply replace_replace.
  - rewrite (run_set_favorite_found _ _ _ _ (updated old b1))
      by (by apply get_after_replace).
    cbn zeta. f_equal. by apply replace_replace.
Qed.

(** X7.  Once the caller has removed a contact, its key is dead for that
    caller: a second [remove], an [update] and a [set_favorite] on it all
    return no value and leave the store as the first [remove] left it. *)
Theorem removed_key_is_dead (user : User.t) (old : Contact.t)
    (body : ContactModel.t) (fav : ContactFavoriteModel.t) (db : DB) :
  wf_db db → old ∈ contacts db → Contact.user_id old = User.id user →
  ∃ db',
    remove user (Contact.id old) db = Returns (Some old) db' ∧
    remove user (Contact.id old) db' = Returns None db' ∧
    update user (Contact.id old) body db' = Returns None db' ∧
    set_favorite user (Contact.id old) fav db' = Returns None db'.
Proof.
  intros Hwf Hold Huser.
  pose proof (get_contact_by_id_owned user db old Hwf Hold Huser) as Hget.
  exists (without_contact old db).
  pose proof (get_after_remove user old db) as Hgone.
  split_and!.
  - by apply run_remove_found.
  - by apply run_remove_absent.
  - by apply run_update_absent.
  - by apply run_set_favorite_absent.
Qed.




(** ** The two tables are independent *)

Lemma users_exec (o : op) (db : DB) : users (exec o db) = users db.
Proof.
  destruct o as [u b|u cid b|u cid|u cid b]; simpl.
  - unfold create.
    rewrite run_bind, run_add_contact, run_bind, run_refresh_contact.
    by destruct (head _).
  - destruct (get_contact_by_id_cases u cid db) as [Hget|[c Hget]].
    + by rewrite run_update_absent.
    + by rewrite (run_update_found _ _ _ _ c).
  - destruct (get_contact_by_id_cases u cid db) as [Hget|[c Hget]].
    + by rewrite run_remove_absent.
    + by rewrite (run_remove_found _ _ _ c).
  - destruct (get_contact_by_id_cases u cid db) as [Hget|[c Hget]].
    + by rewrite run_set_favorite_absent.
    + by rewrite (run_set_favorite_found _ _ _ _ c).
Qed.

Lemma get_user_by_email_cases (email : string) (db : DB) :
  get_user_by_email email db = Returns None db ∨
  ∃ u, get_user_by_email email db = Returns (Some u) db.
Proof.
  rewrite run_get_user_by_email.
  destruct (head _) as [u|]; [right; by exists u | by left].
Qed.

(** X9.  The contact mutations never touch the table of users, in any
    store and along any history; and the user operations, whether they
    return or raise, never touch the table of contacts nor the sequence of
    contact keys. *)
Theorem tables_independent (db : DB) :
  (∀ ops, users (run ops db) = users db) ∧
  (∀ user email url token password,
     let untouched (db' : DB) :=
       contacts db' = contacts db ∧ next_contact_id db' = next_contact_id db in
     untouched (final (update_token user token db)) ∧
     untouched (final (confirmed_email email db)) ∧
     untouched (final (update_avatar email url db)) ∧
     untouched (final (update_password user password db)) ∧
     untouched (final (update_reset_token user token db))).
Proof.
  split.
  - intros ops. revert db. induction ops as [|o ops IH]; intros db; [done|].
    simpl. by rewrite IH, users_exec.
  - intros user email url token password untouched. subst untouched.
    destruct (get_user_by_email_cases email db) as [Hget|[u Hget]].
    + by rewrite run_confirmed_email_absent, run_update_avatar_absent.
    + by rewrite (run_confirmed_email_found _ _ u),
        (run_update_avatar_found _ _ _ u).
Qed.

(** ** Writing to a user and reading it back *)

Lemma replace_user_at (u u' : User.t) (i : nat) (db : DB) :
  wf_users db → users db !! i = Some u → User.id u' = User.id u →
  users (replace_user u' db) = <[i:=u']> (users db).
Proof. intros Hnd Hi Hid. by apply (update_by_key User.id) with u. Qed.

Lemma get_user_by_email_Some (email : string) (db db' : DB) (u : User.t) :
  get_user_by_email email db = Returns (Some u) db' →
  db' = db ∧ u ∈ users db ∧ User.email u = email.
Proof.
  rewrite run_get_user_by_email. intros Hrun. injection Hrun as Hhd <-.
  apply first_Some_elem in Hhd. tauto.
Qed.

Lemma get_user_after_replace (email : string) (u u' : User.t) (db : DB) :
  wf_users db →
  get_user_by_email email db = Returns (Some u) db →
  User.id u' = User.id u → User.email u' = email →
  get_user_by_email email (replace_user u' db) =
  Returns (Some u') (replace_user u' db).
Proof.
  unfold wf_users. rewrite !run_get_user_by_email.
  intros Hnd Hrun Hid Hemail. injection Hrun as Hhd. f_equal.
  apply head_filter_Some in Hhd as (l1 & l2 & Hsplit & Hbefore).
  simpl. rewrite Hsplit in Hnd |- *.
  rewrite fmap_app, fmap_cons in Hnd.
  apply NoDup_app in Hnd as (_ & Hfresh & _).
  rewrite fmap_app, fmap_cons, decide_True by done.
  rewrite filter_app, filter_cons_True by done.
  replace (filter (λ r, User.email r = email) (_ <$> l1)) with (@nil User.t);
    [done|].
  symmetry. apply head_None, first_None.
  intros r (r0 & -> & Hr0)%list_elem_of_fmap.
  rewrite decide_False.
  - rewrite Forall_forall in Hbefore. by apply Hbefore.
  - intros Hk. apply (Hfresh (User.id r0)).
    + by apply list_elem_of_fmap_2.
    + rewrite Hk, Hid. by left.
Qed.

(** X10.  With unique user keys, for the user that
    [get_user_by_email] finds, each of [update_token], [update_password]
    and [update_reset_token] returns normally, and the same lookup
    afterwards returns that user with the one attribute replaced and
    every other attribute as it was. *)
Theorem user_write_then_read (email : string) (u : User.t)
    (token : option string) (password : string) (db : DB) :
  wf_users db →
  get_user_by_email email db = Returns (Some u) db →
  (∃ db', update_token u token db = Returns tt db' ∧
          get_user_by_email email db' =
          Returns (Some (User.set_refresh_token token u)) db') ∧
  (∃ db', update_password u password db = Returns tt db' ∧
          get_user_by_email email db' =
          Returns (Some (User.set_password password u)) db') ∧
  (∃ db', update_reset_token u token db = Returns tt db' ∧
          get_user_by_email email db' =
          Returns (Some (User.set_password_reset_token token u)) db').
Proof.
  intros Hwf Hget.
  apply get_user_by_email_Some in Hget as Hu. destruct Hu as (_ & _ & Hemail).
  split_and!; eexists; (split; [reflexivity|]);
    by apply get_user_after_replace with u.
Qed.

Lemma replace_user_twice (u : User.t) (db : DB) :
  replace_user u (replace_user u db) = replace_user u db.
Proof.
  unfold replace_user. simpl. f_equal.
  rewrite <- list_fmap_compose. apply list_fmap_ext. intros i r _. simpl.
  repeat case_decide; congruence.
Qed.

(** X11.  With unique user keys, when a user has the given email,
    [confirmed_email] rewrites that user's row alone, setting the
    confirmation flag and nothing else; the lookup then returns the
    confirmed user; and confirming again changes nothing. *)
Theorem confirmed_email_then_read (email : string) (u : User.t) (db : DB) :
  wf_users db →
  get_user_by_email email db = Returns (Some u) db →
  ∃ db' i,
    confirmed_email email db = Returns tt db' ∧
    users db !! i = Some u ∧
    users db' = <[i:=User.set_confirmed true u]> (users db) ∧
    get_user_by_email email db' =
      Returns (Some (User.set_confirmed true u)) db' ∧
    confirmed_email email db' = Returns tt db'.
Proof.
  intros Hwf Hget.
  apply get_user_by_email_Some in Hget as Hu. destruct Hu as (_ & Hu & Hemail).
  apply list_elem_of_lookup in Hu as [i Hi].
  assert (get_user_by_email email (replace_user (User.set_confirmed true u) db)
          = Returns (Some (User.set_confirmed true u))
                    (replace_user (User.set_confirmed true u) db)) as Hget'
    by (by apply get_user_after_replace with u).
  exists (replace_user (User.set_confirmed true u) db), i. split_and!.
  - by apply run_confirmed_email_found.
  - done.
  - by apply replace_user_at with u.
  - done.
  - rewrite (run_confirmed_email_found _ _ _ Hget'). f_equal.
    apply replace_user_twice.
Qed.

(** X12.  With unique user keys, when a user has the given email,
    [update_avatar] returns that user with the avatar set to the given
    URL and every other attribute as it was, rewrites that user's row
    alone, and the lookup afterwards returns the same user object. *)
Theorem update_avatar_then_read (email url : string) (u : User.t) (db : DB) :
  wf_users db →
  get_user_by_email email db = Returns (Some u) db →
  ∃ u' db' i,
    update_avatar email url db = Returns u' db' ∧
    User.avatar u' = url ∧
    User.id u' = User.id u ∧ User.email u' = User.email u ∧
    User.password u' = User.password u ∧
    User.refresh_token u' = User.refresh_token u ∧
    User.password_reset_token u' = User.password_reset_token u ∧
    User.confirmed u' = User.confirmed u ∧
    users db !! i = Some u ∧
    users db' = <[i:=u']> (users db) ∧
    get_user_by_email email db' = Returns (Some u') db'.
Proof.
  intros Hwf Hget.
  apply get_user_by_email_Some in Hget as Hu. destruct Hu as (_ & Hu & Hemail).
  apply list_elem_of_lookup in Hu as [i Hi].
  exists (User.set_avatar url u), (replace_user (User.set_avatar url u) db), i.
  split_and!; try done.
  - by apply run_update_avatar_found.
  - by apply replace_user_at with u.
  - by apply get_user_after_replace with u.
Qed.

(** ** Handlers of [routes/search.py] and [main.py] *)

(** X13.  The handler [find_contacts_by_partial_info] passes on whatever
    sequence the repository returns, the empty one included; it raises the
    404 failure "Users not found" exactly when the repository returns
    [None]; and an exception of the repository leaves it unchanged. *)
Theorem find_contacts_handler
    (repository_get_users_by_partial_info :
       User.t → string → M (option (list Contact.t)))
    (partial_info : string) (current_user : User.t) (db : DB) :
  let handler :=
    routes_search.find_contacts_by_partial_info
      repository_get_users_by_partial_info partial_info current_user in
  let repository :=
    repository_get_users_by_partial_info current_user partial_info in
  (∀ l db', handler db = Returns l db' ↔ repository db = Returns (Some l) db') ∧
  (∀ db', repository db = Returns None db' →
          handler db = Raises (HTTPException 404 "Users not found") db') ∧
  (∀ e db', repository db = Raises e db' → handler db = Raises e db') ∧
  (∀ e db', handler db = Raises e db' →
            repository db = Raises e db' ∨
            (repository db = Returns None db' ∧
             e = HTTPException 404 "Users not found")).
Proof.
  intros handler repository. subst handler repository.
  unfold routes_search.find_contacts_by_partial_info. rewrite run_bind.
  destruct (repository_get_users_by_partial_info current_user partial_info db)
    as [[l0|] db0|e0 db0].
  - split_and!; try done. intros l db'. split; intros Hrun.
    + by injection Hrun as <- <-.
    + by injection Hrun as <- <-.
  - split_and!; try done.
    + intros db' Hrun. by injection Hrun as <-.
    + intros e db' Hrun. injection Hrun as <- <-. by right.
  - split_and!; try done.
    + intros e db' Hrun. by injection Hrun as <- <-.
    + intros e db' Hrun. injection Hrun as <- <-. by left.
Qed.

(** X14.  [healthchecker] returns the welcome message exactly when the
    probe query yields a row.  In every other case, the probe yielding no
    row included, it raises the 500 failure "Error connecting to the
    database": the failure "Database is not configured correctly" that
    the body raises is caught by the handler's own [except] and never
    leaves the function. *)
Theorem healthchecker_outcomes {Row : Type} (select_1 : M (option Row))
    (db : DB) :
  (∀ row db', select_1 db = Returns (Some row) db' →
     main.healthchecker select_1 db =
     Returns [("message", "Welcome to FastAPI!")] db') ∧
  (∀ db', select_1 db = Returns None db' →
     main.healthchecker select_1 db =
     Raises (HTTPException 500 "Error connecting to the database") db') ∧
  (∀ exc db', select_1 db = Raises exc db' →
     main.healthchecker select_1 db =
     Raises (HTTPException 500 "Error connecting to the database") db') ∧
  (∀ exc db', main.healthchecker select_1 db = Raises exc db' →
     exc = HTTPException 500 "Error connecting to the database") ∧
  (∀ body db', main.healthchecker select_1 db = Returns body db' →
     ∃ row, select_1 db = Returns (Some row) db').
Proof.
  unfold main.healthchecker, try_except. rewrite run_bind.
  destruct (select_1 db) as [[row|] db0|exc0 db0]; split_and!; try done.
  - intros row' db' Hrun. by injection Hrun as _ <-.
  - intros body db' Hrun. injection Hrun as _ <-. by exists row.
  - intros db' Hrun. by injection Hrun as <-.
  - intros exc db' Hrun. by injection Hrun as <- _.
  - intros exc db' Hrun. by injection Hrun as _ <-.
  - intros exc db' Hrun. by injection Hrun as <- _.
Qed.


(** ** The further properties at work on the sample address book *)

Lemma get_contacts_owned_witness :
  ∃ l, get_contacts alice 2 1 sample_db = Returns l sample_db ∧
       (length l ≤ 2)%nat ∧
       ∀ c, c ∈ l → Contact.user_id c = 1.
Proof.
  destruct (get_contacts_owned alice 2 1 sample_db) as (l & Hrun & Hlen & _ & Hown).
  exists l. split_and!; [done..|]. intros c Hc. by apply Hown.
Defined.

Lemma get_contacts_pages_witness :
  (length (contacts sample_db) ≤ 3)%nat ∧
  get_contacts alice 5 3 sample_db = Returns [] sample_db.
Proof.
  assert (length (contacts sample_db) ≤ 3)%nat as Hlen by (simpl; lia).
  split; [done|].
  destruct (get_contacts_pages alice 5 0 3 sample_db) as [_ Hpast].
  by apply Hpast.
Defined.

Lemma listing_agrees_with_lookup_witness :
  wf_db sample_db ∧
  ∃ l, get_contacts alice 3 0 sample_db = Returns l sample_db ∧
       stored 2 alice bobby ∈ l.
Proof.
  assert (wf_db sample_db) as Hwf by by_evaluation.
  split; [done|].
  destruct (listing_agrees_with_lookup alice sample_db Hwf) as (l & Hrun & Hiff).
  exists l. split; [done|]. by apply Hiff.
Defined.

Lemma writes_isolated_witness :
  wf_db sample_db ∧
  owned_rows 1 (run bobs_history sample_db) = owned_rows 1 sample_db.
Proof.
  assert (wf_db sample_db) as Hwf by by_evaluation.
  split; [done|].
  apply (writes_isolated 1 bobs_history sample_db Hwf).
  apply Forall_forall. by_evaluation.
Defined.

Lemma create_extends_listing_witness :
  wf_db sample_db ∧ User.id bob ≠ User.id alice ∧
  ∃ c db' l,
    create alice anna sample_db = Returns c db' ∧
    get_contacts alice 4 0 db' = Returns (l ++ [c]) db' ∧
    get_contacts bob 4 0 db' = Returns [] db'.
Proof.
  assert (wf_db sample_db) as Hwf by by_evaluation.
  assert (User.id bob ≠ User.id alice) as Hne by (simpl; lia).
  split_and!; [done..|].
  destruct (create_extends_listing alice bob anna sample_db Hwf Hne)
    as (c & db' & l & l' & Hrun & _ & Hafter & Hother & Hother').
  exists c, db', l. rewrite (run_create _ _ _ Hwf) in Hrun.
  injection Hrun as <- <-. split_and!; [by apply run_create|done|].
  injection Hother as <-. exact Hother'.
Defined.

Lemma last_write_wins_witness :
  wf_db sample_db ∧ stored 2 alice bobby ∈ contacts sample_db ∧
  update alice 2 carol (final (update alice 2 anna sample_db)) =
    update alice 2 carol sample_db.
Proof.
  assert (wf_db sample_db) as Hwf by by_evaluation.
  assert (stored 2 alice bobby ∈ contacts sample_db) as Hin by by_evaluation.
  split_and!; [done..|].
  by destruct (last_write_wins alice (stored 2 alice bobby) anna carol
                 (ContactFavoriteModel.Build true) sample_db Hwf Hin eq_refl)
    as (Hupdate & _ & _).
Defined.

Lemma removed_key_is_dead_witness :
  wf_db sample_db ∧ stored 3 alice carol ∈ contacts sample_db ∧
  ∃ db', remove alice 3 sample_db = Returns (Some (stored 3 alice carol)) db' ∧
         remove alice 3 db' = Returns None db'.
Proof.
  assert (wf_db sample_db) as Hwf by by_evaluation.
  assert (stored 3 alice carol ∈ contacts sample_db) as Hin by by_evaluation.
  split_and!; [done..|].
  destruct (removed_key_is_dead alice (stored 3 alice carol) anna
              (ContactFavoriteModel.Build true) sample_db Hwf Hin eq_refl)
    as (db' & Hfirst & Hsecond & _).
  by exists db'.
Defined.


Lemma user_write_then_read_witness :
  wf_users sample_db ∧
  get_user_by_email "bob@x.com" sample_db = Returns (Some bob) sample_db ∧
  ∃ db', update_token bob (Some "eyJhbGciOi") sample_db = Returns tt db' ∧
         get_user_by_email "bob@x.com" db' =
         Returns (Some (User.set_refresh_token (Some "eyJhbGciOi") bob)) db'.
Proof.
  assert (wf_users sample_db) as Hwf by by_evaluation.
  assert (get_user_by_email "bob@x.com" sample_db =
          Returns (Some bob) sample_db) as Hget by reflexivity.
  split_and!; [done..|].
  by destruct (user_write_then_read "bob@x.com" bob (Some "eyJhbGciOi")
                 "secret" sample_db Hwf Hget) as (Htoken & _ & _).
Defined.

Lemma confirmed_email_then_read_witness :
  wf_users sample_db ∧
  ∃ db', confirmed_email "bob@x.com" sample_db = Returns tt db' ∧
         get_user_by_email "bob@x.com" db' =
         Returns (Some (User.set_confirmed true bob)) db'.
Proof.
  assert (wf_users sample_db) as Hwf by by_evaluation.
  split; [done|].
  destruct (confirmed_email_then_read "bob@x.com" bob sample_db Hwf eq_refl)
    as (db' & i & Hrun & _ & _ & Hget & _).
  by exists db'.
Defined.

Lemma update_avatar_then_read_witness :
  wf_users sample_db ∧
  ∃ u' db', update_avatar "alice@x.com" "https://img/alice.png" sample_db =
              Returns u' db' ∧
            User.avatar u' = "https://img/alice.png" ∧
            User.password u' = User.password alice.
Proof.
  assert (wf_users sample_db) as Hwf by by_evaluation.
  split; [done|].
  destruct (update_avatar_then_read "alice@x.com" "https://img/alice.png"
              alice sample_db Hwf eq_refl)
    as (u' & db' & i & Hrun & Havatar & _ & _ & Hpassword & _).
  by exists u', db'.
Defined.

Lemma find_contacts_handler_witness :
  partial_match alice "zzz" sample_db = Returns [] sample_db.
Proof.
  destruct (find_contacts_handler
              (λ u s, Some <$> repository_search.get_users_by_partial_info u s)
              "zzz" alice sample_db) as (Hpass & _).
  by apply Hpass.
Defined.

Lemma healthchecker_outcomes_witness :
  main.healthchecker (mret None : M (option Z)) empty_db =
  Raises (HTTPException 500 "Error connecting to the database") empty_db.
Proof.
  destruct (healthchecker_outcomes (mret None : M (option Z)) empty_db)
    as (_ & Hnone & _).
  by apply Hnone.
Defined.
